(** * upb_struct: run-time defined structs over raw bytes

    A shallow embedding of [upb_struct.h].  A struct instance is a raw byte
    buffer ([uint8_t *s]); a field is found through its descriptor
    ([struct upb_struct_field]) by offset arithmetic.  The header performs no
    existence, bounds or type checks, so every access that would leave the
    buffer is undefined behaviour in C; the embedding returns [None] for it
    and [Some] result otherwise. *)

From Stdlib Require Import ZArith Lia Bool.
From stdpp Require Import base option list strings.
From Equations Require Import Equations.

Local Open Scope Z_scope.

(** ** Bytes and buffers *)

(** A buffer is the sequence of [uint8_t] cells that [s] points to; cell
    [i] is [s[i]].  Cells hold values in [0, 256). *)
Abbreviation buffer := (list Z).

Definition is_uint8 (b : Z) : Prop := 0 <= b < 256.

Definition wf_buffer (s : buffer) : Prop := Forall is_uint8 s.

(** Conversion of an [int] to [uint8_t] (what an assignment to [s[i]] does). *)
Definition to_uint8 (z : Z) : Z := z mod 256.

(** [s[i]] as an rvalue. *)
Definition read_byte (s : buffer) (i : Z) : option Z :=
  if decide (0 <= i) then s !! Z.to_nat i else None.

(** [s[i] = v]. *)
Definition write_byte (s : buffer) (i : Z) (v : Z) : option buffer :=
  if decide (0 <= i < Z.of_nat (length s))
  then Some (<[Z.to_nat i := to_uint8 v]> s)
  else None.

(** ** Structure definition *)

Record upb_struct_field := {
  byte_offset : Z;
  isset_byte_offset : Z;
  isset_byte_mask : Z
}.

Record upb_struct_definition := {
  size : Z;
  num_fields : Z;
  set_flags_bytes : Z;
  num_required_fields : Z;
  fields : list upb_struct_field
}.

(** ** The "set" flags *)

(** [s[f->isset_byte_offset] |= f->isset_byte_mask;] *)
Definition upb_struct_set (s : buffer) (f : upb_struct_field) : option buffer :=
  b ← read_byte s (isset_byte_offset f);
  write_byte s (isset_byte_offset f) (Z.lor b (isset_byte_mask f)).

(** [s[f->isset_byte_offset] &= ~f->isset_byte_mask;] *)
Definition upb_struct_unset (s : buffer) (f : upb_struct_field) : option buffer :=
  b ← read_byte s (isset_byte_offset f);
  write_byte s (isset_byte_offset f) (Z.land b (Z.lnot (isset_byte_mask f))).

(** [return s[f->isset_byte_offset] & f->isset_byte_mask;] converted to
    [bool]: true exactly when the conjunction is not zero. *)
Definition upb_struct_is_set (s : buffer) (f : upb_struct_field) : option bool :=
  b ← read_byte s (isset_byte_offset f);
  Some (negb (Z.land b (isset_byte_mask f) =? 0)).

(** ** Required fields *)

(** The state of the [while] loop of [upb_struct_all_required_fields_set]
    is the pair of locals [num_fields] and [i].  [1 << num_fields] with a
    negative count is undefined. *)
Equations? required_loop (s : buffer) (num_fields i : Z) : option bool
  by wf (Z.to_nat num_fields) lt :=
required_loop s num_fields i with decide (8 < num_fields) => {
  | left _ with read_byte s i => {
      | None => None
      | Some b =>
          if decide (b = 255)
          then required_loop s (num_fields - 8) (i + 1)
          else Some false }
  | right _ with decide (0 <= num_fields) => {
      | right _ => None
      | left _ with read_byte s i => {
          | None => None
          | Some b =>
              if decide (b = Z.shiftl 1 num_fields - 1)
              then Some true
              else Some false } } }.
Proof. lia. Qed.

Definition upb_struct_all_required_fields_set
    (s : buffer) (d : upb_struct_definition) : option bool :=
  required_loop s (num_required_fields d) 0.

(** ** Clearing *)

(** [memset(s, c, n)]; the count is a [size_t], so a negative [int] or one
    past the end of the buffer is out of bounds. *)
Definition memset (s : buffer) (c : Z) (n : Z) : option buffer :=
  if decide (0 <= n <= Z.of_nat (length s))
  then Some (replicate (Z.to_nat n) (to_uint8 c) ++ drop (Z.to_nat n) s)
  else None.

Definition upb_struct_clear (s : buffer) (d : upb_struct_definition)
    : option buffer :=
  memset s 0 (set_flags_bytes d).

(** ** Accessors for primitive types *)

(** The [ctype] argument of [UPB_DEFINE_ACCESSORS]: the C types the header
    instantiates the accessor macros at.  Every pointer type ([struct
    upb_struct_delimited*], [uint8_t*], [struct upb_array*]) is [Cpointer]. *)
Inductive ctype :=
  | Cdouble | Cfloat | Cint32 | Cint64 | Cuint32 | Cuint64 | Cbool | Cpointer.

(** What the header leaves to the host machine: byte order and the size of
    a pointer. *)
Record target := {
  big_endian : bool;
  sizeof_pointer : nat
}.

Section Accessors.

Variable abi : target.

Definition sizeof (t : ctype) : nat :=
  match t with
  | Cdouble => 8 | Cfloat => 4
  | Cint32 => 4 | Cint64 => 8
  | Cuint32 => 4 | Cuint64 => 8
  | Cbool => 1
  | Cpointer => sizeof_pointer abi
  end.

Definition is_signed (t : ctype) : bool :=
  match t with
  | Cint32 | Cint64 => true
  | _ => false
  end.

(** Number of value bits. *)
Definition width (t : ctype) : Z := 8 * Z.of_nat (sizeof t).

(** The values of a C type.  Integers are themselves; a [double] or
    [float] is taken as its bit pattern, a pointer as its address, and a
    [bool] is 0 or 1. *)
Definition has_type (t : ctype) (v : Z) : Prop :=
  match t with
  | Cbool => 0 <= v < 2
  | _ =>
      if is_signed t
      then - 2 ^ (width t - 1) <= v < 2 ^ (width t - 1)
      else 0 <= v < 2 ^ width t
  end.

(** The [n] low-order bytes of [v], least significant first; a negative
    [v] comes out in two's complement. *)
Fixpoint le_bytes (n : nat) (v : Z) : list Z :=
  match n with
  | O => []
  | S n' => v mod 256 :: le_bytes n' (v / 256)
  end.

Fixpoint le_value (bs : list Z) : Z :=
  match bs with
  | [] => 0
  | b :: bs' => b + 256 * le_value bs'
  end.

Definition host_order (bs : list Z) : list Z :=
  if big_endian abi then reverse bs else bs.

(** Object representation of [v] at type [t]. *)
Definition object_bytes (t : ctype) (v : Z) : list Z :=
  host_order (le_bytes (sizeof t) v).

(** The value an object representation stands for.  A [bool] object that
    holds neither 0 nor 1 has no value. *)
Definition object_value (t : ctype) (bs : list Z) : option Z :=
  let u := le_value (host_order bs) in
  match t with
  | Cbool => if decide (u < 2) then Some u else None
  | _ =>
      if is_signed t && (2 ^ (width t - 1) <=? u)
      then Some (u - 2 ^ width t)
      else Some u
  end.

Definition load_bytes (s : buffer) (p : Z) (n : nat) : option (list Z) :=
  if decide (0 <= p /\ p + Z.of_nat n <= Z.of_nat (length s))
  then Some (take n (drop (Z.to_nat p) s))
  else None.

Definition store_bytes (s : buffer) (p : Z) (bs : list Z) : option buffer :=
  if decide (0 <= p /\ p + Z.of_nat (length bs) <= Z.of_nat (length s))
  then Some (take (Z.to_nat p) s ++ bs ++
             drop (Z.to_nat p + length bs)%nat s)
  else None.

(** [*(ctype* )p] as an rvalue and as the target of an assignment, where the
    pointer [p] is an offset into [s]. *)
Definition load (t : ctype) (s : buffer) (p : Z) : option Z :=
  bs ← load_bytes s p (sizeof t); object_value t bs.

Definition store (t : ctype) (s : buffer) (p : Z) (v : Z) : option buffer :=
  store_bytes s p (object_bytes t v).

(** [UPB_DEFINE_ACCESSORS(ctype, name, INLINE)].  A pointer into the struct
    is its offset from [s]. *)
Definition upb_struct_get_T_ptr (f : upb_struct_field) : Z :=
  byte_offset f.

Definition upb_struct_get_T (t : ctype) (s : buffer) (f : upb_struct_field)
    : option Z :=
  load t s (upb_struct_get_T_ptr f).

Definition upb_struct_set_T (t : ctype) (s : buffer) (f : upb_struct_field)
    (val : Z) : option buffer :=
  store t s (upb_struct_get_T_ptr f) val.

(** ** Arrays *)

(** [struct upb_array]: [data] is the address of the element storage in
    the memory that holds it. *)
Record upb_array := {
  len : Z;
  data : Z
}.

(** [UPB_DEFINE_ARRAY_ACCESSORS(ctype, name, INLINE)]:
    [((ctype* )a->data) + n] is [n] elements past [a->data]. *)
Definition upb_array_get_T_ptr (t : ctype) (a : upb_array) (n : Z) : Z :=
  data a + n * Z.of_nat (sizeof t).

Definition upb_array_get_T (t : ctype) (m : buffer) (a : upb_array) (n : Z)
    : option Z :=
  load t m (upb_array_get_T_ptr t a n).

Definition upb_array_set_T (t : ctype) (m : buffer) (a : upb_array) (n : Z)
    (val : Z) : option buffer :=
  store t m (upb_array_get_T_ptr t a n) val.

(** The instances the header defines. *)
Definition upb_struct_get_double := upb_struct_get_T Cdouble.
Definition upb_struct_set_double := upb_struct_set_T Cdouble.
Definition upb_struct_get_float := upb_struct_get_T Cfloat.
Definition upb_struct_set_float := upb_struct_set_T Cfloat.
Definition upb_struct_get_int32 := upb_struct_get_T Cint32.
Definition upb_struct_set_int32 := upb_struct_set_T Cint32.
Definition upb_struct_get_int64 := upb_struct_get_T Cint64.
Definition upb_struct_set_int64 := upb_struct_set_T Cint64.
Definition upb_struct_get_uint32 := upb_struct_get_T Cuint32.
Definition upb_struct_set_uint32 := upb_struct_set_T Cuint32.
Definition upb_struct_get_uint64 := upb_struct_get_T Cuint64.
Definition upb_struct_set_uint64 := upb_struct_set_T Cuint64.
Definition upb_struct_get_bool := upb_struct_get_T Cbool.
Definition upb_struct_set_bool := upb_struct_set_T Cbool.
Definition upb_struct_get_bytes := upb_struct_get_T Cpointer.
Definition upb_struct_set_bytes := upb_struct_set_T Cpointer.
Definition upb_struct_get_string := upb_struct_get_T Cpointer.
Definition upb_struct_set_string := upb_struct_set_T Cpointer.
Definition upb_struct_get_substruct := upb_struct_get_T Cpointer.
Definition upb_struct_set_substruct := upb_struct_set_T Cpointer.
Definition upb_struct_get_array := upb_struct_get_T Cpointer.
Definition upb_struct_set_array := upb_struct_set_T Cpointer.

Definition upb_array_get_int32 := upb_array_get_T Cint32.
Definition upb_array_set_int32 := upb_array_set_T Cint32.

End Accessors.

(** ** Field lookup *)

(** Modelled from the spec: the header only declares
    [upb_struct_find_field_by_name] and [upb_struct_find_field_by_number];
    their bodies are missing, and so is the place where the name and the
    number of a field are kept ([struct upb_struct_field] has neither).  The
    spec gives a linear lookup that returns the descriptor, or none when the
    key is absent, and that does not change the definition.  The keys are
    taken as a table in field order; the result pairs the descriptor found
    (NULL is [None]) with the definition as the call leaves it. *)
Fixpoint find_field {K} `{EqDecision K} (key : K)
    (tbl : list (K * upb_struct_field)) : option upb_struct_field :=
  match tbl with
  | [] => None
  | (k, f) :: tbl' => if decide (k = key) then Some f else find_field key tbl'
  end.

Definition upb_struct_find_field_by_name (names : list string)
    (d : upb_struct_definition) (name : string)
    : option upb_struct_field * upb_struct_definition :=
  (find_field name (zip names (fields d)), d).

Definition upb_struct_find_field_by_number (numbers : list Z)
    (d : upb_struct_definition) (number : Z)
    : option upb_struct_field * upb_struct_definition :=
  (find_field number (zip numbers (fields d)), d).

(** ** The packing rule of the presence bits *)

(** "Required fields have the lowest set bytemasks": the field at position
    [j] of the definition keeps its presence bit in bit [j mod 8] of byte
    [j / 8], and the required fields are the first [num_required_fields]. *)
Definition presence_byte (j : Z) : Z := j / 8.
Definition presence_mask (j : Z) : Z := Z.shiftl 1 (j mod 8).

Definition packed_field (j : Z) (f : upb_struct_field) : Prop :=
  isset_byte_offset f = presence_byte j /\
  isset_byte_mask f = presence_mask j.

(** A mask with exactly one of its eight bits set. *)
Definition single_bit (m : Z) : Prop :=
  exists k, 0 <= k < 8 /\ m = Z.shiftl 1 k.

(** How many whole bytes the loop of [upb_struct_all_required_fields_set]
    passes over for [n] required fields, and how many bits are left for the
    last comparison. *)
Definition whole_bytes (n : Z) : Z :=
  if decide (8 < n) then (n - 1) / 8 else 0.

Definition remaining_bits (n : Z) : Z := n - 8 * whole_bytes n.

(** The byte the check expects in cell [k]: all ones in a whole byte, the
    low [remaining_bits n] ones in the last. *)
Definition expected_byte (n k : Z) : Z :=
  if decide (k < whole_bytes n) then 255
  else Z.shiftl 1 (remaining_bits n) - 1.

(** ** Sample definitions *)

Definition le64 : target := {| big_endian := false; sizeof_pointer := 8 |}.
Definition be32 : target := {| big_endian := true; sizeof_pointer := 4 |}.

(** One required field and one optional field, sharing presence byte 0. *)
Definition req0 : upb_struct_field :=
  {| byte_offset := 1; isset_byte_offset := 0; isset_byte_mask := 1 |}.
Definition opt1 : upb_struct_field :=
  {| byte_offset := 5; isset_byte_offset := 0; isset_byte_mask := 2 |}.
Definition one_required : upb_struct_definition :=
  {| size := 9; num_fields := 2; set_flags_bytes := 1;
     num_required_fields := 1; fields := [req0; opt1] |}.

(** A single optional field and no required one. *)
Definition opt0 : upb_struct_field :=
  {| byte_offset := 1; isset_byte_offset := 0; isset_byte_mask := 1 |}.
Definition none_required : upb_struct_definition :=
  {| size := 5; num_fields := 1; set_flags_bytes := 1;
     num_required_fields := 0; fields := [opt0] |}.

(** Ten required fields: bits 0-7 of byte 0 and bits 0-1 of byte 1. *)
Definition ten_fields : list upb_struct_field :=
  map (fun j => {| byte_offset := 2 + 4 * j;
                   isset_byte_offset := presence_byte j;
                   isset_byte_mask := presence_mask j |})
      (seqZ 0 10).
Definition ten_required : upb_struct_definition :=
  {| size := 42; num_fields := 10; set_flags_bytes := 2;
     num_required_fields := 10; fields := ten_fields |}.

(** ** Sequences of calls *)

(** [upb_struct_set] on each field of [fs] in turn, as a caller does that
    fills in an instance. *)
Fixpoint set_fields (s : buffer) (fs : list upb_struct_field)
    : option buffer :=
  match fs with
  | [] => Some s
  | f :: fs' => s1 ← upb_struct_set s f; set_fields s1 fs'
  end.

(** The read-modify-write of one cell that [upb_struct_set] and
    [upb_struct_unset] both are: [s[i] = h(s[i])]. *)
Definition update_byte (s : buffer) (i : Z) (h : Z -> Z) : option buffer :=
  b ← read_byte s i; write_byte s i (h b).

(** Presence byte [k] of an instance in which exactly the fields at
    positions [0 .. m-1] of the packing rule are set. *)
Definition prefix_byte (m k : Z) : Z :=
  Z.ones (Z.min 8 (Z.max 0 (m - 8 * k))).

(** The cells of a typed slot: [sizeof] bytes from [p] on. *)
Definition in_slot (p : Z) (n : nat) (j : Z) : Prop :=
  p <= j < p + Z.of_nat n.

(** * Properties *)

(** ** Bits of a byte *)

Lemma to_uint8_range z : is_uint8 (to_uint8 z).
Proof. unfold is_uint8, to_uint8. apply Z.mod_pos_bound. lia. Qed.

Lemma to_uint8_small z : is_uint8 z -> to_uint8 z = z.
Proof. unfold is_uint8, to_uint8. intros H. apply Z.mod_small. lia. Qed.

Lemma to_uint8_testbit z k :
  Z.testbit (to_uint8 z) k = (k <? 8) && Z.testbit z k.
Proof.
  unfold to_uint8. change 256 with (2 ^ 8).
  apply Z.testbit_mod_pow2. lia.
Qed.

Lemma is_uint8_high_bits b k : is_uint8 b -> 8 <= k -> Z.testbit b k = false.
Proof.
  intros Hb Hk. rewrite <- (to_uint8_small b Hb), to_uint8_testbit.
  destruct (Z.ltb_spec k 8); [lia | reflexivity].
Qed.

(** Equality of integers from equality of all their bits, after pushing
    [Z.testbit] through the operators the flag functions use. *)
Ltac bits :=
  apply Z.bits_inj'; intros ?k ?Hk;
  repeat first
    [ rewrite to_uint8_testbit | rewrite Z.lor_spec | rewrite Z.land_spec
    | rewrite Z.lnot_spec by assumption | rewrite Z.bits_0 ];
  repeat match goal with
  | |- context [Z.testbit ?x ?k] => destruct (Z.testbit x k)
  | |- context [?k <? 8] => destruct (k <? 8)
  end; reflexivity.

Lemma or_mask_twice b m :
  to_uint8 (Z.lor (to_uint8 (Z.lor b m)) m) = to_uint8 (Z.lor b m).
Proof. bits. Qed.

Lemma and_not_mask_twice b m :
  to_uint8 (Z.land (to_uint8 (Z.land b (Z.lnot m))) (Z.lnot m))
  = to_uint8 (Z.land b (Z.lnot m)).
Proof. bits. Qed.

Lemma or_mask_uint8 b m :
  is_uint8 b -> is_uint8 m -> to_uint8 (Z.lor b m) = Z.lor b m.
Proof.
  intros Hb Hm. apply Z.bits_inj'; intros k Hk.
  rewrite to_uint8_testbit, Z.lor_spec.
  destruct (Z.ltb_spec k 8); [reflexivity |].
  rewrite !is_uint8_high_bits by (assumption || lia). reflexivity.
Qed.

Lemma and_not_mask_uint8 b m :
  is_uint8 b -> to_uint8 (Z.land b (Z.lnot m)) = Z.land b (Z.lnot m).
Proof.
  intros Hb. apply Z.bits_inj'; intros k Hk.
  rewrite to_uint8_testbit, Z.land_spec.
  destruct (Z.ltb_spec k 8); [reflexivity |].
  rewrite is_uint8_high_bits by (assumption || lia). reflexivity.
Qed.

(** ** Reading and writing a cell *)

Lemma read_byte_Some s i b :
  read_byte s i = Some b -> 0 <= i < Z.of_nat (length s).
Proof.
  unfold read_byte. case_decide; [| discriminate].
  intros Hlk%lookup_lt_Some. lia.
Qed.

Lemma read_byte_in_bounds s i :
  0 <= i < Z.of_nat (length s) -> exists b, read_byte s i = Some b.
Proof.
  intros Hi. unfold read_byte. rewrite decide_True by lia.
  apply lookup_lt_is_Some. lia.
Qed.

Lemma write_byte_Some s i v s' :
  write_byte s i v = Some s' <->
  0 <= i < Z.of_nat (length s) /\ s' = <[Z.to_nat i := to_uint8 v]> s.
Proof.
  unfold write_byte. case_decide; split.
  - intros [= <-]. auto.
  - intros [_ ->]. reflexivity.
  - discriminate.
  - intros [? _]. contradiction.
Qed.

(** Every cell written holds a byte. *)
Lemma write_byte_wf s i v s' :
  wf_buffer s -> write_byte s i v = Some s' -> wf_buffer s'.
Proof.
  intros Hwf [_ ->]%write_byte_Some.
  apply Forall_insert; [done | apply to_uint8_range].
Qed.

(** ** The "set" flags: what one call does *)

Lemma shiftl_1_testbit j k :
  0 <= j -> Z.testbit (Z.shiftl 1 j) k = (j =? k).
Proof. intros Hj. rewrite Z.shiftl_1_l. by apply Z.pow2_bits_eqb. Qed.

Lemma land_single_bit_is_zero b j :
  0 <= j -> (Z.land b (Z.shiftl 1 j) =? 0) = negb (Z.testbit b j).
Proof.
  intros Hj. destruct (Z.testbit b j) eqn:Hb; simpl.
  - apply Z.eqb_neq. intros H0.
    assert (Hbit : Z.testbit (Z.land b (Z.shiftl 1 j)) j = true).
    { rewrite Z.land_spec, Hb, shiftl_1_testbit, Z.eqb_refl by lia. done. }
    rewrite H0, Z.bits_0 in Hbit. discriminate.
  - apply Z.eqb_eq. apply Z.bits_inj'; intros k Hk.
    rewrite Z.land_spec, shiftl_1_testbit, Z.bits_0 by lia.
    destruct (Z.eqb_spec j k) as [<- |]; [by rewrite Hb | by rewrite andb_false_r].
Qed.

Lemma upb_struct_set_Some s f s1 :
  upb_struct_set s f = Some s1 <->
  exists b, read_byte s (isset_byte_offset f) = Some b /\
            s1 = <[Z.to_nat (isset_byte_offset f) :=
                     to_uint8 (Z.lor b (isset_byte_mask f))]> s.
Proof.
  unfold upb_struct_set. split.
  - destruct (read_byte s (isset_byte_offset f)) as [b |] eqn:Hr;
      [simpl | discriminate].
    intros [_ ->]%write_byte_Some. eauto.
  - intros (b & Hr & ->). rewrite Hr. simpl.
    apply write_byte_Some. split; [by eapply read_byte_Some | done].
Qed.

Lemma upb_struct_unset_Some s f s1 :
  upb_struct_unset s f = Some s1 <->
  exists b, read_byte s (isset_byte_offset f) = Some b /\
            s1 = <[Z.to_nat (isset_byte_offset f) :=
                     to_uint8 (Z.land b (Z.lnot (isset_byte_mask f)))]> s.
Proof.
  unfold upb_struct_unset. split.
  - destruct (read_byte s (isset_byte_offset f)) as [b |] eqn:Hr;
      [simpl | discriminate].
    intros [_ ->]%write_byte_Some. eauto.
  - intros (b & Hr & ->). rewrite Hr. simpl.
    apply write_byte_Some. split; [by eapply read_byte_Some | done].
Qed.

Lemma upb_struct_set_wf s f s1 :
  wf_buffer s -> upb_struct_set s f = Some s1 -> wf_buffer s1.
Proof.
  intros Hwf (b & _ & ->)%upb_struct_set_Some.
  apply Forall_insert; [done | apply to_uint8_range].
Qed.

Lemma upb_struct_unset_wf s f s1 :
  wf_buffer s -> upb_struct_unset s f = Some s1 -> wf_buffer s1.
Proof.
  intros Hwf (b & _ & ->)%upb_struct_unset_Some.
  apply Forall_insert; [done | apply to_uint8_range].
Qed.

Lemma read_insert_same (s : buffer) i v b :
  read_byte s i = Some b -> read_byte (<[Z.to_nat i := v]> s) i = Some v.
Proof.
  intros Hr. pose proof (read_byte_Some _ _ _ Hr). unfold read_byte.
  rewrite decide_True by lia. apply list_lookup_insert_eq. lia.
Qed.

Lemma read_insert_other (s : buffer) i j v :
  0 <= i -> j <> i -> read_byte (<[Z.to_nat i := v]> s) j = read_byte s j.
Proof.
  intros Hi Hne. unfold read_byte. case_decide; [| done].
  apply list_lookup_insert_ne. lia.
Qed.

Lemma upb_struct_set_twice s f :
  (s1 ← upb_struct_set s f; upb_struct_set s1 f) = upb_struct_set s f.
Proof.
  destruct (upb_struct_set s f) as [s1 |] eqn:Hset; [simpl | done].
  apply upb_struct_set_Some in Hset as (b & Hr & ->).
  apply upb_struct_set_Some. eexists. split.
  - by eapply read_insert_same.
  - by rewrite list_insert_insert_eq, or_mask_twice.
Qed.

Lemma upb_struct_unset_twice s f :
  (s1 ← upb_struct_unset s f; upb_struct_unset s1 f) = upb_struct_unset s f.
Proof.
  destruct (upb_struct_unset s f) as [s1 |] eqn:Hun; [simpl | done].
  apply upb_struct_unset_Some in Hun as (b & Hr & ->).
  apply upb_struct_unset_Some. eexists. split.
  - by eapply read_insert_same.
  - by rewrite list_insert_insert_eq, and_not_mask_twice.
Qed.

(** C8: [upb_struct_set] and [upb_struct_unset] are idempotent (a second
    call on the result of the first changes nothing, and fails only where
    the first fails), and on a cell holding the byte [b] the first stores
    [b | mask] and the second [b & ~mask] in the cell at
    [isset_byte_offset], leaving every other cell as it was. *)
Theorem set_unset_idempotent (s : buffer) (f : upb_struct_field) :
  (s1 ← upb_struct_set s f; upb_struct_set s1 f) = upb_struct_set s f /\
  (s1 ← upb_struct_unset s f; upb_struct_unset s1 f) = upb_struct_unset s f /\
  (forall b,
     read_byte s (isset_byte_offset f) = Some b ->
     is_uint8 b -> is_uint8 (isset_byte_mask f) ->
     upb_struct_set s f =
       Some (<[Z.to_nat (isset_byte_offset f) :=
                 Z.lor b (isset_byte_mask f)]> s) /\
     upb_struct_unset s f =
       Some (<[Z.to_nat (isset_byte_offset f) :=
                 Z.land b (Z.lnot (isset_byte_mask f))]> s)).
Proof.
  split; [apply upb_struct_set_twice |].
  split; [apply upb_struct_unset_twice |].
  intros b Hr Hb Hm. split.
  - apply upb_struct_set_Some. exists b. by rewrite or_mask_uint8.
  - apply upb_struct_unset_Some. exists b. by rewrite and_not_mask_uint8.
Qed.

Lemma set_unset_idempotent_witness :
  upb_struct_set [5; 0] opt1 = Some [7; 0] /\
  upb_struct_unset [5; 0] req0 = Some [4; 0].
Proof.
  split.
  - apply (proj2 (proj2 (set_unset_idempotent [5; 0] opt1)) 5);
      [reflexivity | unfold is_uint8; lia | unfold is_uint8; simpl; lia].
  - apply (proj2 (proj2 (set_unset_idempotent [5; 0] req0)) 5);
      [reflexivity | unfold is_uint8; lia | unfold is_uint8; simpl; lia].
Defined.

(** ** Setting then unsetting a flag *)

Lemma set_then_unset s f s1 s2 :
  upb_struct_set s f = Some s1 -> upb_struct_unset s1 f = Some s2 ->
  exists b, read_byte s (isset_byte_offset f) = Some b /\
    s2 = <[Z.to_nat (isset_byte_offset f) :=
             to_uint8 (Z.land (to_uint8 (Z.lor b (isset_byte_mask f)))
                              (Z.lnot (isset_byte_mask f)))]> s.
Proof.
  intros (b & Hr & ->)%upb_struct_set_Some (b1 & Hr1 & ->)%upb_struct_unset_Some.
  exists b. split; [done |].
  rewrite (read_insert_same _ _ _ _ Hr) in Hr1. injection Hr1 as <-.
  by rewrite list_insert_insert_eq.
Qed.

Lemma set_then_unset_bit b j k :
  0 <= j -> 0 <= k < 8 -> k <> j ->
  Z.testbit (to_uint8 (Z.land (to_uint8 (Z.lor b (Z.shiftl 1 j)))
                              (Z.lnot (Z.shiftl 1 j)))) k
  = Z.testbit b k.
Proof.
  intros Hj Hk Hne.
  rewrite to_uint8_testbit, Z.land_spec, to_uint8_testbit, Z.lor_spec,
    Z.lnot_spec, shiftl_1_testbit by lia.
  destruct (Z.ltb_spec k 8); [| lia].
  destruct (Z.eqb_spec j k); [lia |].
  simpl. by rewrite orb_false_r, andb_true_r.
Qed.

Lemma shiftl_1_inj j k : 0 <= j -> 0 <= k -> Z.shiftl 1 j = Z.shiftl 1 k -> j = k.
Proof.
  intros Hj Hk. rewrite !Z.shiftl_1_l. by apply Z.pow_inj_r.
Qed.

(** C7, as amended: with single-bit masks and [g]'s presence bit at another
    (byte, bit) position than [f]'s, [upb_struct_set s f] followed by
    [upb_struct_unset] of [f] leaves [g]'s presence bit as it was, and also
    every bit of [g]'s presence byte other than [f]'s own bit; when [g]'s
    presence byte is not [f]'s, the whole byte is as it was. *)
Theorem set_unset_frame (s s1 s2 : buffer) (f g : upb_struct_field) :
  single_bit (isset_byte_mask f) ->
  single_bit (isset_byte_mask g) ->
  isset_byte_offset g <> isset_byte_offset f \/
    isset_byte_mask g <> isset_byte_mask f ->
  upb_struct_set s f = Some s1 ->
  upb_struct_unset s1 f = Some s2 ->
  upb_struct_is_set s2 g = upb_struct_is_set s g /\
  (isset_byte_offset g <> isset_byte_offset f ->
   read_byte s2 (isset_byte_offset g) = read_byte s (isset_byte_offset g)) /\
  (forall b, read_byte s (isset_byte_offset g) = Some b ->
     exists b2, read_byte s2 (isset_byte_offset g) = Some b2 /\
       forall k, 0 <= k < 8 -> Z.shiftl 1 k <> isset_byte_mask f ->
         Z.testbit b2 k = Z.testbit b k).
Proof.
  intros (j & Hj & Hmf) (i & Hi & Hmg) Hpos Hset Hunset.
  destruct (set_then_unset _ _ _ _ Hset Hunset) as (bf & Hrf & ->).
  pose proof (read_byte_Some _ _ _ Hrf) as Hbound.
  destruct (decide (isset_byte_offset g = isset_byte_offset f)) as [Heq | Hne].
  - assert (Hij : i <> j) by (destruct Hpos; congruence).
    unfold upb_struct_is_set. rewrite Heq, Hmf.
    split; [| split; [done |]].
    + rewrite (read_insert_same _ _ _ _ Hrf), Hrf. simpl.
      rewrite Hmg, !land_single_bit_is_zero by lia.
      by rewrite set_then_unset_bit by lia.
    + intros b Hb. rewrite Hrf in Hb. injection Hb as <-.
      eexists. split; [by eapply read_insert_same |].
      intros k Hk Hkj. apply set_then_unset_bit; [lia | lia | congruence].
  - split; [| split].
    + unfold upb_struct_is_set. by rewrite read_insert_other by lia.
    + intros _. by rewrite read_insert_other by lia.
    + intros b Hb. exists b. by rewrite read_insert_other by lia.
Qed.

Lemma set_unset_frame_witness :
  upb_struct_is_set [2; 0] opt1 = upb_struct_is_set [3; 0] opt1.
Proof.
  refine (proj1 (set_unset_frame [3; 0] [3; 0] [2; 0] req0 opt1 _ _ _ _ _)).
  - exists 0. simpl. split; [lia | reflexivity].
  - exists 1. simpl. split; [lia | reflexivity].
  - right. simpl. lia.
  - reflexivity.
  - reflexivity.
Defined.

(** C7, as stated, fails: the byte that [g] shares with [f] is not restored
    when [f]'s bit was 1 before.  With byte 0 holding [0b11], [f] on bit 0
    and [g] on bit 1, set then unset of [f] leaves [0b10]. *)
Lemma set_unset_shared_byte_counterexample :
  ~ (forall (s s1 s2 : buffer) (f g : upb_struct_field),
       single_bit (isset_byte_mask f) ->
       single_bit (isset_byte_mask g) ->
       isset_byte_offset g <> isset_byte_offset f \/
         isset_byte_mask g <> isset_byte_mask f ->
       upb_struct_set s f = Some s1 ->
       upb_struct_unset s1 f = Some s2 ->
       upb_struct_is_set s2 g = upb_struct_is_set s g /\
       read_byte s2 (isset_byte_offset g) = read_byte s (isset_byte_offset g)).
Proof.
  intros H.
  destruct (H [3] [3] [2] req0 opt1) as [_ Hbyte].
  - exists 0. simpl. split; [lia | reflexivity].
  - exists 1. simpl. split; [lia | reflexivity].
  - right. simpl. lia.
  - reflexivity.
  - reflexivity.
  - discriminate Hbyte.
Qed.

(** When [f]'s bit is clear to begin with, setting and unsetting it puts
    the whole instance back. *)
Lemma set_unset_restores s f s1 s2 :
  wf_buffer s -> upb_struct_is_set s f = Some false ->
  upb_struct_set s f = Some s1 -> upb_struct_unset s1 f = Some s2 ->
  s2 = s.
Proof.
  intros Hwf Hclear Hset Hunset.
  destruct (set_then_unset _ _ _ _ Hset Hunset) as (b & Hb & ->).
  unfold upb_struct_is_set in Hclear. rewrite Hb in Hclear. simpl in Hclear.
  injection Hclear as Hclear. apply negb_false_iff, Z.eqb_eq in Hclear.
  unfold read_byte in Hb. case_decide; [| done].
  assert (Hbyte : is_uint8 b).
  { unfold wf_buffer in Hwf. rewrite Forall_lookup in Hwf. by eapply Hwf. }
  apply list_insert_id. rewrite Hb. f_equal.
  apply Z.bits_inj'; intros k Hk.
  rewrite to_uint8_testbit, Z.land_spec, to_uint8_testbit, Z.lor_spec,
    Z.lnot_spec by done.
  pose proof (f_equal (fun z => Z.testbit z k) Hclear) as Hbit. simpl in Hbit.
  rewrite Z.land_spec, Z.bits_0 in Hbit.
  destruct (Z.ltb_spec k 8) as [Hlt | Hge].
  - destruct (Z.testbit b k), (Z.testbit (isset_byte_mask f) k); done.
  - by rewrite is_uint8_high_bits by done.
Qed.

(** ** Clearing all flags *)

Lemma memset_Some s c n s' :
  memset s c n = Some s' ->
  length s' = length s /\
  forall i, 0 <= i < n -> read_byte s' i = Some (to_uint8 c).
Proof.
  unfold memset. case_decide as Hn; [| discriminate]. intros [= <-]. split.
  - rewrite length_app, length_replicate, length_drop. lia.
  - intros i Hi. unfold read_byte. rewrite decide_True by lia.
    rewrite lookup_app_l by (rewrite length_replicate; lia).
    apply lookup_replicate_2. lia.
Qed.

Lemma memset_other s c n s' i :
  memset s c n = Some s' -> n <= i -> read_byte s' i = read_byte s i.
Proof.
  unfold memset. case_decide as Hn; [| discriminate]. intros [= <-] Hi.
  unfold read_byte. case_decide; [| done].
  rewrite lookup_app_r by (rewrite length_replicate; lia).
  rewrite length_replicate, lookup_drop. f_equal. lia.
Qed.

Lemma upb_struct_clear_wf s d s' :
  wf_buffer s -> upb_struct_clear s d = Some s' -> wf_buffer s'.
Proof.
  unfold upb_struct_clear, memset. intros Hwf.
  case_decide; [| done]. intros [= <-].
  apply Forall_app. split.
  - apply Forall_replicate, to_uint8_range.
  - by apply Forall_drop.
Qed.

(** C6: when the presence region lies inside the buffer and every field of
    [d] keeps its presence bit inside that region, [upb_struct_clear]
    succeeds and afterwards [upb_struct_is_set] is false for every field of
    [d]. *)
Theorem clear_then_none_set (s : buffer) (d : upb_struct_definition) :
  0 <= set_flags_bytes d <= Z.of_nat (length s) ->
  Forall (fun f => 0 <= isset_byte_offset f < set_flags_bytes d) (fields d) ->
  exists s', upb_struct_clear s d = Some s' /\
    forall f, f ∈ fields d -> upb_struct_is_set s' f = Some false.
Proof.
  intros Hn Hinv. unfold upb_struct_clear.
  destruct (memset s 0 (set_flags_bytes d)) as [s' |] eqn:Hm.
  - exists s'. split; [done |]. intros f Hf.
    rewrite Forall_forall in Hinv.
    apply memset_Some in Hm as [_ Hz].
    unfold upb_struct_is_set. rewrite (Hz _ (Hinv f Hf)). reflexivity.
  - unfold memset in Hm. by rewrite decide_True in Hm.
Qed.

Lemma clear_then_none_set_witness :
  exists s', upb_struct_clear [3; 7; 9; 9; 9; 9; 9; 9; 9] one_required = Some s' /\
    forall f, f ∈ fields one_required -> upb_struct_is_set s' f = Some false.
Proof.
  apply clear_then_none_set.
  - simpl. lia.
  - repeat constructor; simpl; lia.
Defined.

(** ** The required-field check *)

(** One turn of the loop, and the comparison after the loop. *)
Lemma required_loop_step s n i :
  8 < n ->
  required_loop s n i =
    b ← read_byte s i;
    if decide (b = 255) then required_loop s (n - 8) (i + 1) else Some false.
Proof.
  intros Hn. rewrite required_loop_equation_1.
  destruct (decide (8 < n)); [| lia]. simpl.
  by destruct (read_byte s i).
Qed.

Lemma required_loop_last s n i :
  0 <= n <= 8 ->
  required_loop s n i =
    b ← read_byte s i; Some (bool_decide (b = Z.shiftl 1 n - 1)).
Proof.
  intros Hn. rewrite required_loop_equation_1.
  destruct (decide (8 < n)); [lia |]. simpl.
  destruct (decide (0 <= n)); [| lia]. simpl.
  destruct (read_byte s i) as [b |]; simpl; [| done].
  by destruct (decide (b = Z.shiftl 1 n - 1));
    [rewrite bool_decide_eq_true_2 | rewrite bool_decide_eq_false_2].
Qed.

Lemma required_loop_negative s n i : n < 0 -> required_loop s n i = None.
Proof.
  intros Hn. rewrite required_loop_equation_1.
  destruct (decide (8 < n)); [lia |]. simpl.
  by destruct (decide (0 <= n)); [lia |].
Qed.

Lemma whole_bytes_small n : n <= 8 -> whole_bytes n = 0.
Proof. intros Hn. unfold whole_bytes. by rewrite decide_False by lia. Qed.

Lemma whole_bytes_step n : 8 < n -> whole_bytes n = whole_bytes (n - 8) + 1.
Proof.
  intros Hn. unfold whole_bytes. rewrite decide_True by lia.
  replace (n - 1) with ((n - 8 - 1) + 1 * 8) by lia.
  rewrite Z.div_add by lia.
  case_decide; [done |].
  assert (0 <= n - 8 - 1 < 8) as H8 by lia.
  rewrite (Z.div_small _ _ H8). lia.
Qed.

Lemma whole_bytes_nonneg n : 0 <= whole_bytes n.
Proof.
  unfold whole_bytes. case_decide; [| done].
  apply Z.div_pos; lia.
Qed.

Lemma remaining_bits_small n : n <= 8 -> remaining_bits n = n.
Proof. intros Hn. unfold remaining_bits. rewrite whole_bytes_small; lia. Qed.

Lemma remaining_bits_step n : 8 < n -> remaining_bits n = remaining_bits (n - 8).
Proof. intros Hn. unfold remaining_bits. rewrite (whole_bytes_step n); lia. Qed.

Lemma remaining_bits_range n : 0 <= n -> 0 <= remaining_bits n <= 8.
Proof.
  intros Hn. unfold remaining_bits, whole_bytes. case_decide; [| lia].
  pose proof (Z.div_mod (n - 1) 8 ltac:(lia)).
  pose proof (Z.mod_pos_bound (n - 1) 8 ltac:(lia)). lia.
Qed.

(** Induction on the number of turns the loop still has to make. *)
Lemma required_loop_ind (P : Z -> Prop) :
  (forall n, n <= 8 -> P n) ->
  (forall n, 8 < n -> P (n - 8) -> P n) ->
  forall n, P n.
Proof.
  intros Hlast Hstep n.
  assert (Hall : forall q : nat, forall m, m <= 8 + 8 * Z.of_nat q -> P m).
  { induction q as [| q IH]; intros m Hm.
    - apply Hlast. lia.
    - destruct (decide (8 < m)); [| apply Hlast; lia].
      apply Hstep; [done |]. apply IH. lia. }
  apply (Hall (Z.to_nat n)). lia.
Qed.

Lemma required_loop_true s n : forall i,
  0 <= n ->
  required_loop s n i = Some true <->
  (forall k, 0 <= k < whole_bytes n -> read_byte s (i + k) = Some 255) /\
  read_byte s (i + whole_bytes n) = Some (Z.shiftl 1 (remaining_bits n) - 1).
Proof.
  induction n as [n Hn | n Hn IH] using required_loop_ind; intros i Hpos.
  - rewrite required_loop_last, whole_bytes_small, remaining_bits_small,
      Z.add_0_r by lia.
    split.
    + destruct (read_byte s i) as [b |]; simpl; [| done].
      intros [= ->%bool_decide_eq_true]. split; [lia | done].
    + intros [_ ->]. simpl. by rewrite bool_decide_eq_true_2.
  - rewrite required_loop_step, (whole_bytes_step n), (remaining_bits_step n)
      by lia.
    pose proof (whole_bytes_nonneg (n - 8)) as Hq.
    split.
    + destruct (read_byte s i) as [b |] eqn:Hb; simpl; [| done].
      destruct (decide (b = 255)) as [-> |]; [| done].
      intros [Hall Hlast]%IH; [| lia]. split.
      * intros k Hk. destruct (decide (k = 0)) as [-> |].
        { by rewrite Z.add_0_r. }
        replace (i + k) with (i + 1 + (k - 1)) by lia. apply Hall. lia.
      * rewrite <- Hlast. f_equal. lia.
    + intros [Hall Hlast].
      rewrite <- (Z.add_0_r i) at 1. rewrite (Hall 0) by lia. simpl.
      apply IH; [lia |]. split.
      * intros k Hk. replace (i + 1 + k) with (i + (k + 1)) by lia.
        apply Hall. lia.
      * rewrite <- Hlast. f_equal. lia.
Qed.

Lemma required_loop_false s n : forall i,
  0 <= n ->
  required_loop s n i = Some false <->
  exists k b, 0 <= k <= whole_bytes n /\
    (forall j, 0 <= j < k -> read_byte s (i + j) = Some 255) /\
    read_byte s (i + k) = Some b /\ b <> expected_byte n k.
Proof.
  induction n as [n Hn | n Hn IH] using required_loop_ind; intros i Hpos.
  - rewrite required_loop_last by lia. unfold expected_byte.
    rewrite whole_bytes_small, remaining_bits_small by lia.
    split.
    + destruct (read_byte s i) as [b |] eqn:Hb; simpl; [| done].
      intros [= Hne%bool_decide_eq_false]. exists 0, b.
      rewrite Z.add_0_r, decide_False by lia.
      repeat split; [lia | lia | intros; lia | done | done].
    + intros (k & b & Hk & _ & Hb & Hne).
      assert (k = 0) as -> by lia.
      rewrite Z.add_0_r in Hb. rewrite Hb. simpl.
      rewrite decide_False in Hne by lia.
      by rewrite bool_decide_eq_false_2.
  - rewrite required_loop_step by lia. unfold expected_byte.
    rewrite (whole_bytes_step n), (remaining_bits_step n) by lia.
    pose proof (whole_bytes_nonneg (n - 8)) as Hq.
    split.
    + destruct (read_byte s i) as [b |] eqn:Hb; simpl; [| done].
      destruct (decide (b = 255)) as [-> | Hne].
      * intros (k & b & Hk & Hall & Hbk & Hexp)%IH; [| lia].
        exists (k + 1), b. split; [lia |]. split; [| split].
        { intros j Hj. destruct (decide (j = 0)) as [-> |].
          - by rewrite Z.add_0_r.
          - replace (i + j) with (i + 1 + (j - 1)) by lia. apply Hall. lia. }
        { rewrite <- Hbk. f_equal. lia. }
        { unfold expected_byte in Hexp.
          destruct (decide (k < whole_bytes (n - 8)));
            [by rewrite decide_True by lia | by rewrite decide_False by lia]. }
      * intros _. exists 0, b. rewrite Z.add_0_r.
        rewrite decide_True by lia.
        repeat split; [lia | lia | intros; lia | done | done].
    + intros (k & b & Hk & Hall & Hbk & Hexp).
      destruct (decide (k = 0)) as [-> | Hk0].
      * rewrite Z.add_0_r in Hbk. rewrite Hbk. simpl.
        rewrite decide_True in Hexp by lia. by rewrite decide_False.
      * rewrite <- (Z.add_0_r i) at 1. rewrite (Hall 0) by lia. simpl.
        apply IH; [lia |].
        exists (k - 1), b. split; [lia |]. split; [| split].
        { intros j Hj. replace (i + 1 + j) with (i + (j + 1)) by lia.
          apply Hall. lia. }
        { rewrite <- Hbk. f_equal. lia. }
        { unfold expected_byte.
          destruct (decide (k < whole_bytes (n - 8) + 1));
            [by rewrite decide_True by lia | by rewrite decide_False by lia]. }
Qed.

(** The check has a verdict as soon as the cells it reads exist. *)
Lemma required_loop_total s n : forall i,
  0 <= n -> 0 <= i -> i + whole_bytes n < Z.of_nat (length s) ->
  is_Some (required_loop s n i).
Proof.
  induction n as [n Hn | n Hn IH] using required_loop_ind; intros i Hpos Hi Hlen.
  - rewrite required_loop_last by lia.
    rewrite whole_bytes_small in Hlen by lia.
    destruct (read_byte_in_bounds s i) as [b ->]; [lia |]. by eexists.
  - rewrite required_loop_step by lia.
    rewrite (whole_bytes_step n) in Hlen by lia.
    pose proof (whole_bytes_nonneg (n - 8)).
    destruct (read_byte_in_bounds s i) as [b ->]; [lia |]. simpl.
    destruct (decide (b = 255)); [| by eexists].
    apply IH; lia.
Qed.

(** C3: for a definition with [n >= 0] required fields the check passes
    over [whole_bytes n] cells, from cell 0 on, asking each to be [0xFF],
    and then compares the next cell with [(1 << remaining_bits n) - 1],
    where [n = 8 * whole_bytes n + remaining_bits n] and at most 8 bits
    remain.  It answers true exactly when all these cells hold the expected
    byte, and false exactly when the first cell that differs is reached;
    it has an answer whenever the buffer holds these cells.  With ten
    required fields, bytes [0xFF, 0b11] give true and [0xFF, 0b01] give
    false. *)
Theorem all_required_fields_set_algorithm :
  (forall (s : buffer) (d : upb_struct_definition),
     0 <= num_required_fields d ->
     let n := num_required_fields d in
     let r := upb_struct_all_required_fields_set s d in
     (n = 8 * whole_bytes n + remaining_bits n /\
      0 <= whole_bytes n /\ 0 <= remaining_bits n <= 8 /\
      (8 < n -> 0 < remaining_bits n)) /\
     (whole_bytes n < Z.of_nat (length s) -> is_Some r) /\
     (r = Some true <->
        (forall k, 0 <= k < whole_bytes n -> read_byte s k = Some 255) /\
        read_byte s (whole_bytes n) = Some (Z.shiftl 1 (remaining_bits n) - 1)) /\
     (r = Some false <->
        exists k b, 0 <= k <= whole_bytes n /\
          (forall j, 0 <= j < k -> read_byte s j = Some 255) /\
          read_byte s k = Some b /\ b <> expected_byte n k)) /\
  (forall rest : buffer,
     upb_struct_all_required_fields_set (255 :: 3 :: rest) ten_required
       = Some true /\
     upb_struct_all_required_fields_set (255 :: 1 :: rest) ten_required
       = Some false).
Proof.
  split.
  - intros s d Hn n r. subst r. unfold upb_struct_all_required_fields_set.
    fold n. split; [| split; [| split]].
    + pose proof (remaining_bits_range n Hn).
      pose proof (whole_bytes_nonneg n).
      repeat split; try lia; unfold remaining_bits; [lia |].
      intros H8. unfold whole_bytes. rewrite decide_True by done.
      pose proof (Z.div_mod (n - 1) 8 ltac:(lia)).
      pose proof (Z.mod_pos_bound (n - 1) 8 ltac:(lia)). lia.
    + intros Hlen. apply required_loop_total; lia.
    + apply (required_loop_true s n 0 Hn).
    + apply (required_loop_false s n 0 Hn).
  - intros rest. unfold upb_struct_all_required_fields_set. simpl. split.
    + rewrite required_loop_step by lia. simpl.
      by rewrite required_loop_last by lia.
    + rewrite required_loop_step by lia. simpl.
      by rewrite required_loop_last by lia.
Qed.

Lemma all_required_fields_set_algorithm_witness :
  is_Some (upb_struct_all_required_fields_set [255; 2] ten_required).
Proof.
  refine (proj1 (proj2 (proj1 all_required_fields_set_algorithm
                          [255; 2] ten_required _)) _).
  - simpl. lia.
  - vm_compute. reflexivity.
Defined.

Lemma shiftl_1_pred_testbit n k :
  0 <= n -> 0 <= k -> Z.testbit (Z.shiftl 1 n - 1) k = (k <? n).
Proof.
  intros Hn Hk. change (Z.shiftl 1 n - 1) with (Z.ones n).
  by apply Z.testbit_ones_nonneg.
Qed.

(** C4: with between 1 and 8 required fields the verdict is true exactly
    when presence byte 0 equals [(1 << num_required_fields) - 1]; the whole
    byte is compared, so a byte whose required bits are all 1 and that has a
    further bit set (the presence bit of a field that is not required) gives
    false. *)
Theorem all_required_fields_set_exact_byte
    (s : buffer) (d : upb_struct_definition) :
  1 <= num_required_fields d <= 8 ->
  let n := num_required_fields d in
  (upb_struct_all_required_fields_set s d = Some true <->
     read_byte s 0 = Some (Z.shiftl 1 n - 1)) /\
  (forall b, read_byte s 0 = Some b ->
     upb_struct_all_required_fields_set s d =
       Some (bool_decide (b = Z.shiftl 1 n - 1))) /\
  (forall b j, read_byte s 0 = Some b ->
     (forall k, 0 <= k < n -> Z.testbit b k = true) ->
     n <= j < 8 -> Z.testbit b j = true ->
     upb_struct_all_required_fields_set s d = Some false).
Proof.
  intros Hn n. unfold upb_struct_all_required_fields_set. fold n.
  rewrite required_loop_last by lia.
  split; [| split].
  - destruct (read_byte s 0) as [b |]; simpl; [| done]. split.
    + by intros [= ->%bool_decide_eq_true].
    + intros [= ->]. by rewrite bool_decide_eq_true_2.
  - by intros b ->.
  - intros b j -> _ Hj Hbit. simpl. rewrite bool_decide_eq_false_2; [done |].
    intros ->. rewrite shiftl_1_pred_testbit in Hbit by lia.
    destruct (Z.ltb_spec j n); [lia | discriminate].
Qed.

Lemma all_required_fields_set_exact_byte_witness :
  upb_struct_all_required_fields_set [3; 0; 0; 0; 0; 0; 0; 0; 0] one_required
    = Some false.
Proof.
  refine (proj2 (proj2 (all_required_fields_set_exact_byte
            [3; 0; 0; 0; 0; 0; 0; 0; 0] one_required _)) 3 1 _ _ _ _).
  - simpl. lia.
  - reflexivity.
  - simpl. intros k Hk. assert (k = 0) as -> by lia. reflexivity.
  - simpl. lia.
  - reflexivity.
Defined.

(** ** What the verdict says about the required fields *)

Lemma is_set_packed s j f b :
  packed_field j f -> read_byte s (presence_byte j) = Some b ->
  upb_struct_is_set s f = Some (Z.testbit b (j mod 8)).
Proof.
  intros [Hoff Hmask] Hb. unfold upb_struct_is_set.
  rewrite Hoff, Hmask, Hb. simpl. unfold presence_mask.
  pose proof (Z.mod_pos_bound j 8 ltac:(lia)).
  by rewrite land_single_bit_is_zero, negb_involutive by lia.
Qed.

Lemma is_set_after_unset s f s' :
  upb_struct_unset s f = Some s' -> upb_struct_is_set s' f = Some false.
Proof.
  intros (b & Hb & ->)%upb_struct_unset_Some. unfold upb_struct_is_set.
  rewrite (read_insert_same _ _ _ _ Hb). simpl.
  replace (Z.land (to_uint8 (Z.land b (Z.lnot (isset_byte_mask f))))
                  (isset_byte_mask f)) with 0; [done |].
  symmetry. bits.
Qed.

(** A true verdict is sound: every required field has its bit set. *)
Lemma all_required_true_sound s d j f :
  upb_struct_all_required_fields_set s d = Some true ->
  0 <= j < num_required_fields d -> packed_field j f ->
  upb_struct_is_set s f = Some true.
Proof.
  unfold upb_struct_all_required_fields_set.
  set (n := num_required_fields d). intros Htrue Hj Hf.
  apply required_loop_true in Htrue as [Hall Hlast]; [| lia].
  rewrite !Z.add_0_l in Hlast.
  pose proof (Z.div_mod j 8 ltac:(lia)) as Hdm.
  pose proof (Z.mod_pos_bound j 8 ltac:(lia)) as Hmod.
  assert (Hq : j / 8 < whole_bytes n \/
               (j / 8 = whole_bytes n /\ j mod 8 < remaining_bits n)).
  { unfold remaining_bits, whole_bytes. case_decide.
    - pose proof (Z.div_mod (n - 1) 8 ltac:(lia)).
      pose proof (Z.mod_pos_bound (n - 1) 8 ltac:(lia)).
      assert (j / 8 <= (n - 1) / 8) by (apply Z.div_le_mono; lia).
      lia.
    - right. assert (j / 8 = 0) by (apply Z.div_small; lia). lia. }
  destruct Hq as [Hlt | [Heq Hrem]].
  - rewrite (is_set_packed s j f 255 Hf).
    + f_equal. change 255 with (Z.shiftl 1 8 - 1).
      rewrite shiftl_1_pred_testbit by lia. apply Z.ltb_lt. lia.
    + unfold presence_byte. rewrite <- (Z.add_0_l (j / 8)). apply Hall.
      split; [apply Z.div_pos; lia | done].
  - pose proof (remaining_bits_range n ltac:(lia)).
    rewrite (is_set_packed s j f (Z.shiftl 1 (remaining_bits n) - 1) Hf).
    + f_equal. rewrite shiftl_1_pred_testbit by lia. by apply Z.ltb_lt.
    + unfold presence_byte. by rewrite Heq.
Qed.

(** Taking away the bit of a required field turns a true verdict into a
    false one. *)
Lemma all_required_unset_required s d j f s' :
  upb_struct_all_required_fields_set s d = Some true ->
  0 <= j < num_required_fields d -> packed_field j f ->
  upb_struct_unset s f = Some s' ->
  upb_struct_all_required_fields_set s' d = Some false.
Proof.
  intros Htrue Hj Hf Hunset.
  assert (Hsome : is_Some (upb_struct_all_required_fields_set s' d)).
  { unfold upb_struct_all_required_fields_set in *.
    apply required_loop_true in Htrue as [_ Hlast]; [| lia].
    apply read_byte_Some in Hlast.
    apply upb_struct_unset_Some in Hunset as (b & _ & ->).
    apply required_loop_total; [lia | lia |]. rewrite length_insert. lia. }
  destruct Hsome as [[|] Hr]; [| done].
  pose proof (all_required_true_sound _ _ _ _ Hr Hj Hf) as Hset.
  rewrite (is_set_after_unset _ _ _ Hunset) in Hset. discriminate.
Qed.

(** With no required field the check still reads cell 0 and compares it
    with 0. *)
Lemma all_required_none_required s d :
  num_required_fields d = 0 ->
  upb_struct_all_required_fields_set s d =
    b ← read_byte s 0; Some (bool_decide (b = 0)).
Proof.
  intros Hn. unfold upb_struct_all_required_fields_set.
  rewrite Hn. by rewrite required_loop_last by lia.
Qed.

(** C1: the verdict should be true exactly when every required field has
    its presence bit set, whatever the bits of the other fields.  The check
    compares whole bytes, and so it is not: in [one_required] the required
    field [req0] and the optional field [opt1] share presence byte 0; from
    a cleared instance, setting [req0] gives the verdict true, and setting
    [opt1] as well leaves [req0] set but turns the verdict to false. *)
Theorem all_required_fields_set_rejects_optional_bit :
  packed_field 0 req0 /\ packed_field 1 opt1 /\
  exists s1 s2 : buffer,
    upb_struct_set (replicate 9 0) req0 = Some s1 /\
    upb_struct_set s1 opt1 = Some s2 /\
    upb_struct_is_set s2 req0 = Some true /\
    upb_struct_all_required_fields_set s1 one_required = Some true /\
    upb_struct_all_required_fields_set s2 one_required = Some false.
Proof.
  split; [done |]. split; [done |].
  exists [1; 0; 0; 0; 0; 0; 0; 0; 0], [3; 0; 0; 0; 0; 0; 0; 0; 0].
  repeat split; vm_compute; reflexivity.
Qed.

(** C2: with no required field the verdict should be true for every
    instance.  It is true for a cleared one, but in [none_required], whose
    only field is optional, setting that field turns the verdict to
    false. *)
Theorem all_required_fields_set_none_required :
  exists s1 : buffer,
    upb_struct_set (replicate 5 0) opt0 = Some s1 /\
    upb_struct_all_required_fields_set (replicate 5 0) none_required
      = Some true /\
    upb_struct_all_required_fields_set s1 none_required = Some false.
Proof.
  exists [1; 0; 0; 0; 0]. repeat split; vm_compute; reflexivity.
Qed.

(** ** Typed loads and stores *)

Section AccessorProperties.

Variable abi : target.

Lemma length_le_bytes n v : length (le_bytes n v) = n.
Proof. revert v. induction n as [| n IH]; intros v; simpl; [done |]. by rewrite IH. Qed.

Lemma le_value_le_bytes n v :
  le_value (le_bytes n v) = v mod 256 ^ Z.of_nat n.
Proof.
  revert v. induction n as [| n IH]; intros v.
  - simpl. by rewrite Z.mod_1_r.
  - cbn [le_bytes le_value]. rewrite IH, Nat2Z.inj_succ, Z.pow_succ_r by lia.
    rewrite Z.rem_mul_r; [done | lia |]. apply Z.pow_pos_nonneg; lia.
Qed.

Lemma host_order_involutive bs : host_order abi (host_order abi bs) = bs.
Proof. unfold host_order. destruct (big_endian abi); [| done]. apply reverse_involutive. Qed.

Lemma length_host_order bs : length (host_order abi bs) = length bs.
Proof. unfold host_order. destruct (big_endian abi); [| done]. apply length_reverse. Qed.

Lemma length_object_bytes t v : length (object_bytes abi t v) = sizeof abi t.
Proof. unfold object_bytes. by rewrite length_host_order, length_le_bytes. Qed.

Lemma pow_256_width t : 256 ^ Z.of_nat (sizeof abi t) = 2 ^ width abi t.
Proof.
  unfold width. change 256 with (2 ^ 8). rewrite <- Z.pow_mul_r by lia. done.
Qed.

(** The object representation of a value of the type stands for that
    value. *)
Lemma object_value_object_bytes t v :
  has_type abi t v -> object_value abi t (object_bytes abi t v) = Some v.
Proof.
  intros Hv. unfold object_value, object_bytes.
  rewrite host_order_involutive, le_value_le_bytes, pow_256_width.
  assert (Hunsigned : 0 <= v < 2 ^ width abi t -> v mod 2 ^ width abi t = v)
    by apply Z.mod_small.
  assert (Hsigned : forall w, 0 < w ->
            - 2 ^ (w - 1) <= v < 2 ^ (w - 1) ->
            (if is_signed Cint32 && (2 ^ (w - 1) <=? v mod 2 ^ w)
             then Some (v mod 2 ^ w - 2 ^ w) else Some (v mod 2 ^ w)) = Some v).
  { intros w Hw Hr. simpl.
    assert (H2 : 2 ^ w = 2 * 2 ^ (w - 1)).
    { rewrite <- Z.pow_succ_r by lia. f_equal. lia. }
    destruct (decide (0 <= v)).
    - rewrite Z.mod_small by lia.
      destruct (Z.leb_spec (2 ^ (w - 1)) v); [lia | done].
    - replace (v mod 2 ^ w) with (v + 2 ^ w).
      + destruct (Z.leb_spec (2 ^ (w - 1)) (v + 2 ^ w)); [f_equal; lia | lia].
      + apply Z.mod_unique with (q := -1); lia. }
  destruct t; simpl in Hv |- *.
  - by rewrite (Hunsigned Hv).
  - by rewrite (Hunsigned Hv).
  - apply (Hsigned 32); [lia | done].
  - apply (Hsigned 64); [lia | done].
  - by rewrite (Hunsigned Hv).
  - by rewrite (Hunsigned Hv).
  - change (width abi Cbool) with 8. rewrite Z.mod_small by lia.
    by rewrite decide_True by lia.
  - by rewrite (Hunsigned Hv).
Qed.

Lemma store_bytes_Some s p bs s' :
  store_bytes s p bs = Some s' <->
  (0 <= p /\ p + Z.of_nat (length bs) <= Z.of_nat (length s)) /\
  s' = take (Z.to_nat p) s ++ bs ++ drop (Z.to_nat p + length bs)%nat s.
Proof.
  unfold store_bytes. case_decide; split.
  - by intros [= <-].
  - by intros [_ ->].
  - done.
  - by intros [? _].
Qed.

Lemma store_bytes_length s p bs s' :
  store_bytes s p bs = Some s' -> length s' = length s.
Proof.
  intros [Hb ->]%store_bytes_Some.
  rewrite !length_app, length_take, length_drop. lia.
Qed.

Lemma store_bytes_lookup_other s p bs s' (j : nat) :
  store_bytes s p bs = Some s' ->
  (j < Z.to_nat p \/ Z.to_nat p + length bs <= j)%nat ->
  s' !! j = s !! j.
Proof.
  intros [Hb ->]%store_bytes_Some Hj.
  assert (Hlen : length (take (Z.to_nat p) s) = Z.to_nat p)
    by (rewrite length_take; lia).
  destruct Hj as [Hj | Hj].
  - rewrite lookup_app_l by lia. by apply lookup_take_lt.
  - rewrite lookup_app_r by lia. rewrite lookup_app_r by lia.
    rewrite lookup_drop. f_equal. lia.
Qed.

Lemma load_store_bytes_same s p bs s' :
  store_bytes s p bs = Some s' -> load_bytes s' p (length bs) = Some bs.
Proof.
  intros Hst. pose proof (store_bytes_length _ _ _ _ Hst) as Hlen.
  apply store_bytes_Some in Hst as [Hb ->].
  unfold load_bytes. rewrite decide_True by lia. f_equal.
  rewrite drop_app_length' by (rewrite length_take; lia).
  apply take_app_length.
Qed.

Lemma load_store_bytes_other s p bs s' q n :
  store_bytes s p bs = Some s' ->
  q + Z.of_nat n <= p \/ p + Z.of_nat (length bs) <= q ->
  load_bytes s' q n = load_bytes s q n.
Proof.
  intros Hst Hsep. pose proof (store_bytes_length _ _ _ _ Hst) as Hlen.
  unfold load_bytes. rewrite Hlen. case_decide as Hq; [| done]. f_equal.
  apply list_eq. intros i. rewrite !lookup_take.
  case_decide; [| done]. rewrite !lookup_drop.
  eapply store_bytes_lookup_other; [done |].
  apply store_bytes_Some in Hst as [Hb _]. lia.
Qed.

Lemma store_in_bounds t s p v :
  0 <= p -> p + Z.of_nat (sizeof abi t) <= Z.of_nat (length s) ->
  is_Some (store abi t s p v).
Proof.
  intros Hp Hlen. unfold store, store_bytes.
  rewrite length_object_bytes. rewrite decide_True by done. by eexists.
Qed.

Lemma le_bytes_wf n v : wf_buffer (le_bytes n v).
Proof.
  revert v. induction n as [| n IH]; intros v; simpl.
  - constructor.
  - constructor; [apply to_uint8_range | apply IH].
Qed.

Lemma store_wf t s p v s' :
  wf_buffer s -> store abi t s p v = Some s' -> wf_buffer s'.
Proof.
  unfold store. intros Hwf [_ ->]%store_bytes_Some.
  repeat (apply Forall_app; split).
  - by apply Forall_take.
  - unfold object_bytes, host_order.
    destruct (big_endian abi); [apply Forall_reverse |]; apply le_bytes_wf.
  - by apply Forall_drop.
Qed.

Lemma load_store_same t s p v s' :
  has_type abi t v -> store abi t s p v = Some s' -> load abi t s' p = Some v.
Proof.
  intros Hv Hst. unfold load, store in *.
  apply load_store_bytes_same in Hst. rewrite length_object_bytes in Hst.
  rewrite Hst. simpl. by apply object_value_object_bytes.
Qed.

Lemma load_store_other t t' s p q v s' :
  store abi t s p v = Some s' ->
  q + Z.of_nat (sizeof abi t') <= p \/ p + Z.of_nat (sizeof abi t) <= q ->
  load abi t' s' q = load abi t' s q.
Proof.
  intros Hst Hsep. unfold load, store in *.
  erewrite load_store_bytes_other; [done | done |].
  by rewrite length_object_bytes.
Qed.

(** C5: at every type the header defines accessors for, writing a value
    [v] of the type through [upb_struct_set_T] and reading the field back
    through [upb_struct_get_T] gives [v]; the write is defined whenever the
    slot at [s + f->byte_offset] lies inside the buffer. *)
Theorem struct_set_get_roundtrip
    (t : ctype) (s : buffer) (f : upb_struct_field) (v : Z) :
  has_type abi t v ->
  (0 <= byte_offset f /\
   byte_offset f + Z.of_nat (sizeof abi t) <= Z.of_nat (length s) ->
   is_Some (upb_struct_set_T abi t s f v)) /\
  (forall s', upb_struct_set_T abi t s f v = Some s' ->
     upb_struct_get_T abi t s' f = Some v).
Proof.
  intros Hv. unfold upb_struct_set_T, upb_struct_get_T, upb_struct_get_T_ptr.
  split.
  - intros [Hoff Hlen]. by apply store_in_bounds.
  - intros s'. by apply load_store_same.
Qed.

(** Distinct elements of an array do not overlap. *)
Lemma array_set_get_other t m a i j v m' :
  i <> j ->
  upb_array_set_T abi t m a i v = Some m' ->
  upb_array_get_T abi t m' a j = upb_array_get_T abi t m a j.
Proof.
  intros Hne Hst. unfold upb_array_set_T, upb_array_get_T in *.
  eapply load_store_other; [done |].
  unfold upb_array_get_T_ptr. nia.
Qed.

Lemma array_set_get_same t m a i v m' :
  has_type abi t v ->
  upb_array_set_T abi t m a i v = Some m' ->
  upb_array_get_T abi t m' a i = Some v.
Proof. intros Hv Hst. by eapply load_store_same. Qed.

(** C9: in an array of three [int32_t] lying inside the memory, storing -5
    in element 1 is defined, element 1 then reads -5, and elements 0 and 2
    read what they read before.  At every type, element [n] is at
    [data + n * sizeof(type)], an element written reads back the value
    written, and every other element reads as before. *)
Theorem array_set_get_int32 (m : buffer) (a : upb_array) :
  len a = 3 ->
  0 <= data a ->
  data a + len a * 4 <= Z.of_nat (length m) ->
  (exists m',
     upb_array_set_int32 abi m a 1 (-5) = Some m' /\
     upb_array_get_int32 abi m' a 1 = Some (-5) /\
     upb_array_get_int32 abi m' a 0 = upb_array_get_int32 abi m a 0 /\
     upb_array_get_int32 abi m' a 2 = upb_array_get_int32 abi m a 2) /\
  (forall t n,
     upb_array_get_T_ptr abi t a n = data a + n * Z.of_nat (sizeof abi t)) /\
  (forall t i v m',
     has_type abi t v ->
     upb_array_set_T abi t m a i v = Some m' ->
     upb_array_get_T abi t m' a i = Some v /\
     forall j, j <> i ->
       upb_array_get_T abi t m' a j = upb_array_get_T abi t m a j).
Proof.
  intros Hlen Hdata Hmem. split; [| split; [done |]].
  - unfold upb_array_set_int32, upb_array_get_int32.
    destruct (store_in_bounds Cint32 m (upb_array_get_T_ptr abi Cint32 a 1) (-5))
      as [m' Hst].
    { unfold upb_array_get_T_ptr. simpl. lia. }
    { unfold upb_array_get_T_ptr. simpl. lia. }
    exists m'. split; [done |]. split; [| split].
    + apply (array_set_get_same Cint32 m a 1 (-5)); [| done].
      unfold has_type, width. simpl. lia.
    + apply (array_set_get_other Cint32 m a 1 0 (-5)); [lia | done].
    + apply (array_set_get_other Cint32 m a 1 2 (-5)); [lia | done].
  - intros t i v m' Hv Hst. split.
    + by eapply array_set_get_same.
    + intros j Hj. eapply array_set_get_other; [| done]. congruence.
Qed.

End AccessorProperties.

Lemma struct_set_get_roundtrip_witness :
  upb_struct_get_T be32 Cint64 [0; 255; 255; 255; 255; 255; 255; 255; 249; 9]
    req0 = Some (-7).
Proof.
  refine (proj2 (struct_set_get_roundtrip be32 Cint64
                   [0; 1; 2; 3; 4; 5; 6; 7; 8; 9] req0 (-7) _) _ _).
  - unfold has_type, width. simpl. lia.
  - reflexivity.
Defined.

Lemma array_set_get_int32_witness :
  exists m',
    upb_array_set_int32 le64 [9; 1; 0; 0; 0; 2; 0; 0; 0; 3; 0; 0; 0]
      {| len := 3; data := 1 |} 1 (-5) = Some m' /\
    upb_array_get_int32 le64 m' {| len := 3; data := 1 |} 1 = Some (-5) /\
    upb_array_get_int32 le64 m' {| len := 3; data := 1 |} 0 =
      upb_array_get_int32 le64 [9; 1; 0; 0; 0; 2; 0; 0; 0; 3; 0; 0; 0]
        {| len := 3; data := 1 |} 0 /\
    upb_array_get_int32 le64 m' {| len := 3; data := 1 |} 2 =
      upb_array_get_int32 le64 [9; 1; 0; 0; 0; 2; 0; 0; 0; 3; 0; 0; 0]
        {| len := 3; data := 1 |} 2.
Proof.
  refine (proj1 (array_set_get_int32 le64 _ _ _ _ _)).
  - reflexivity.
  - simpl. lia.
  - simpl. lia.
Defined.

(** ** Field lookup *)

Lemma find_field_absent {K} `{EqDecision K} (key : K) (keys : list K)
    (fs : list upb_struct_field) :
  key ∉ take (length fs) keys -> find_field key (zip keys fs) = None.
Proof.
  revert fs. induction keys as [| k keys IH]; intros [| f fs] Hnot; try done.
  simpl in *. apply not_elem_of_cons in Hnot as [Hne Hnot].
  rewrite decide_False by done. by apply IH.
Qed.

Lemma find_field_Some {K} `{EqDecision K} (key : K) (keys : list K)
    (fs : list upb_struct_field) f :
  find_field key (zip keys fs) = Some f -> f ∈ fs /\ key ∈ keys.
Proof.
  revert fs. induction keys as [| k keys IH]; intros [| f' fs]; try done.
  simpl. case_decide as Hk.
  - intros [= <-]. subst k. split; apply list_elem_of_here.
  - intros [Hf Hkey]%IH. split; by apply list_elem_of_further.
Qed.

(** C10: looking up a name, or a number, that none of the fields of [d]
    has gives the absent result ([None], the model of NULL) and the
    definition is handed back as it was. *)
Theorem find_field_unknown (names : list string) (numbers : list Z)
    (d : upb_struct_definition) (name : string) (number : Z) :
  name ∉ take (length (fields d)) names ->
  number ∉ take (length (fields d)) numbers ->
  upb_struct_find_field_by_name names d name = (None, d) /\
  upb_struct_find_field_by_number numbers d number = (None, d).
Proof.
  intros Hname Hnumber.
  unfold upb_struct_find_field_by_name, upb_struct_find_field_by_number.
  by rewrite !find_field_absent.
Qed.

Lemma find_field_unknown_witness :
  upb_struct_find_field_by_name ["id"; "label"] one_required "size"
    = (None, one_required) /\
  upb_struct_find_field_by_number [1; 2] one_required 7
    = (None, one_required).
Proof.
  apply find_field_unknown.
  - simpl. intros Hin. repeat (apply elem_of_cons in Hin as [Hin | Hin]; [discriminate |]).
    by apply elem_of_nil in Hin.
  - simpl. intros Hin. repeat (apply elem_of_cons in Hin as [Hin | Hin]; [discriminate |]).
    by apply elem_of_nil in Hin.
Defined.

(** * Further properties of the flag functions *)

Lemma upb_struct_set_update s f :
  upb_struct_set s f =
    update_byte s (isset_byte_offset f) (fun b => Z.lor b (isset_byte_mask f)).
Proof. reflexivity. Qed.

Lemma upb_struct_unset_update s f :
  upb_struct_unset s f =
    update_byte s (isset_byte_offset f)
      (fun b => Z.land b (Z.lnot (isset_byte_mask f))).
Proof. reflexivity. Qed.

Lemma update_byte_Some s i h s' :
  update_byte s i h = Some s' <->
  exists b, read_byte s i = Some b /\ s' = <[Z.to_nat i := to_uint8 (h b)]> s.
Proof.
  unfold update_byte. split.
  - destruct (read_byte s i) as [b |] eqn:Hr; [simpl | done].
    intros [_ ->]%write_byte_Some. eauto.
  - intros (b & Hr & ->). rewrite Hr. simpl.
    apply write_byte_Some. split; [by eapply read_byte_Some | done].
Qed.

Lemma update_byte_None s i h :
  update_byte s i h = None <-> ~ (0 <= i < Z.of_nat (length s)).
Proof.
  split.
  - intros Hnone Hi. destruct (read_byte_in_bounds s i Hi) as [b Hb].
    assert (Hsome : update_byte s i h = Some (<[Z.to_nat i := to_uint8 (h b)]> s))
      by (apply update_byte_Some; eauto).
    congruence.
  - intros Hi. destruct (update_byte s i h) as [s' |] eqn:Hu; [| done].
    apply update_byte_Some in Hu as (b & Hb%read_byte_Some & _). done.
Qed.

Lemma update_byte_length s i h s' :
  update_byte s i h = Some s' -> length s' = length s.
Proof. intros (b & _ & ->)%update_byte_Some. apply length_insert. Qed.

Lemma update_byte_read_same s i h s' :
  update_byte s i h = Some s' ->
  exists b, read_byte s i = Some b /\ read_byte s' i = Some (to_uint8 (h b)).
Proof.
  intros (b & Hb & ->)%update_byte_Some. exists b. split; [done |].
  by eapply read_insert_same.
Qed.

Lemma update_byte_read_other s i h s' j :
  update_byte s i h = Some s' -> j <> i -> read_byte s' j = read_byte s j.
Proof.
  intros (b & Hb & ->)%update_byte_Some Hne.
  apply read_byte_Some in Hb. apply read_insert_other; [lia | done].
Qed.

(** Two read-modify-writes can be swapped when they are on different
    cells, or when their effects on one cell can. *)
Lemma update_byte_commute s i j h1 h2 :
  (i = j -> forall b,
     to_uint8 (h2 (to_uint8 (h1 b))) = to_uint8 (h1 (to_uint8 (h2 b)))) ->
  (s1 ← update_byte s i h1; update_byte s1 j h2) =
  (s1 ← update_byte s j h2; update_byte s1 i h1).
Proof.
  intros Hsame.
  destruct (decide (0 <= i < Z.of_nat (length s))) as [Hi | Hi];
    destruct (decide (0 <= j < Z.of_nat (length s))) as [Hj | Hj].
  - destruct (read_byte_in_bounds s i Hi) as [bi Hbi].
    destruct (read_byte_in_bounds s j Hj) as [bj Hbj].
    assert (H1 : update_byte s i h1 = Some (<[Z.to_nat i := to_uint8 (h1 bi)]> s))
      by (apply update_byte_Some; eauto).
    assert (H2 : update_byte s j h2 = Some (<[Z.to_nat j := to_uint8 (h2 bj)]> s))
      by (apply update_byte_Some; eauto).
    rewrite H1, H2. simpl.
    destruct (decide (i = j)) as [<- | Hne].
    + rewrite Hbi in Hbj. injection Hbj as <-.
      transitivity (Some (<[Z.to_nat i := to_uint8 (h2 (to_uint8 (h1 bi)))]> s)).
      * apply update_byte_Some. eexists. split; [by eapply read_insert_same |].
        by rewrite list_insert_insert_eq.
      * symmetry. apply update_byte_Some. eexists.
        split; [by eapply read_insert_same |].
        by rewrite list_insert_insert_eq, Hsame.
    + transitivity (Some (<[Z.to_nat j := to_uint8 (h2 bj)]>
                            (<[Z.to_nat i := to_uint8 (h1 bi)]> s))).
      * apply update_byte_Some. exists bj. split; [| done].
        by rewrite read_insert_other by lia.
      * symmetry. apply update_byte_Some. exists bi. split.
        { by rewrite read_insert_other by lia. }
        apply list_insert_insert_ne. lia.
  - destruct (update_byte s i h1) as [s1 |] eqn:H1; simpl.
    + rewrite (proj2 (update_byte_None s j h2) Hj). simpl.
      apply update_byte_None. by rewrite (update_byte_length _ _ _ _ H1).
    + by rewrite (proj2 (update_byte_None s j h2) Hj).
  - rewrite (proj2 (update_byte_None s i h1) Hi). simpl.
    destruct (update_byte s j h2) as [s1 |] eqn:H2; simpl; [| done].
    symmetry. apply update_byte_None. by rewrite (update_byte_length _ _ _ _ H2).
  - rewrite (proj2 (update_byte_None s i h1) Hi).
    by rewrite (proj2 (update_byte_None s j h2) Hj).
Qed.

Lemma or_mask_test b m : Z.land (to_uint8 (Z.lor b m)) m = to_uint8 m.
Proof. bits. Qed.

Lemma disjoint_masks_bit m1 m2 k :
  Z.land m1 m2 = 0 -> Z.testbit m1 k && Z.testbit m2 k = false.
Proof. intros H0. by rewrite <- Z.land_spec, H0, Z.bits_0. Qed.

Lemma or_mask_other b mf mg :
  is_uint8 mg -> Z.land mg mf = 0 ->
  Z.land (to_uint8 (Z.lor b mf)) mg = Z.land b mg.
Proof.
  intros Hg Hdisj. apply Z.bits_inj'; intros k Hk.
  rewrite !Z.land_spec, to_uint8_testbit, Z.lor_spec.
  pose proof (disjoint_masks_bit mg mf k Hdisj) as Hbit.
  destruct (Z.ltb_spec k 8).
  - destruct (Z.testbit b k), (Z.testbit mf k), (Z.testbit mg k); done.
  - rewrite (is_uint8_high_bits mg k) by done. by rewrite !andb_false_r.
Qed.

Lemma and_not_mask_other b mf mg :
  is_uint8 mg -> Z.land mg mf = 0 ->
  Z.land (to_uint8 (Z.land b (Z.lnot mf))) mg = Z.land b mg.
Proof.
  intros Hg Hdisj. apply Z.bits_inj'; intros k Hk.
  rewrite !Z.land_spec, to_uint8_testbit, Z.land_spec, Z.lnot_spec by done.
  pose proof (disjoint_masks_bit mg mf k Hdisj) as Hbit.
  destruct (Z.ltb_spec k 8).
  - destruct (Z.testbit b k), (Z.testbit mf k), (Z.testbit mg k); done.
  - rewrite (is_uint8_high_bits mg k) by done. by rewrite !andb_false_r.
Qed.

Lemma or_or_swap b m1 m2 :
  to_uint8 (Z.lor (to_uint8 (Z.lor b m1)) m2) =
  to_uint8 (Z.lor (to_uint8 (Z.lor b m2)) m1).
Proof. bits. Qed.

Lemma and_and_swap b m1 m2 :
  to_uint8 (Z.land (to_uint8 (Z.land b (Z.lnot m1))) (Z.lnot m2)) =
  to_uint8 (Z.land (to_uint8 (Z.land b (Z.lnot m2))) (Z.lnot m1)).
Proof. bits. Qed.

Lemma or_and_swap b mf mg :
  Z.land mf mg = 0 ->
  to_uint8 (Z.land (to_uint8 (Z.lor b mf)) (Z.lnot mg)) =
  to_uint8 (Z.lor (to_uint8 (Z.land b (Z.lnot mg))) mf).
Proof.
  intros Hdisj. apply Z.bits_inj'; intros k Hk.
  rewrite !to_uint8_testbit, Z.land_spec, Z.lor_spec, to_uint8_testbit,
    Z.lor_spec, to_uint8_testbit, Z.land_spec, Z.lnot_spec by done.
  pose proof (disjoint_masks_bit mf mg k Hdisj) as Hbit.
  destruct (k <? 8), (Z.testbit b k), (Z.testbit mf k), (Z.testbit mg k); done.
Qed.

(** X1: the flag reads back what the last call on it wrote.  After
    [upb_struct_set], [upb_struct_is_set] is true, unless the descriptor's
    mask is 0, when it is false; after [upb_struct_unset] it is false,
    whatever the cell held before. *)
Theorem flag_reads_back (s s1 : buffer) (f : upb_struct_field) :
  is_uint8 (isset_byte_mask f) ->
  (upb_struct_set s f = Some s1 ->
   upb_struct_is_set s1 f = Some (bool_decide (isset_byte_mask f <> 0))) /\
  (upb_struct_unset s f = Some s1 ->
   upb_struct_is_set s1 f = Some false).
Proof.
  intros Hm. split; [| apply is_set_after_unset].
  intros (b & Hb & ->)%upb_struct_set_Some. unfold upb_struct_is_set.
  rewrite (read_insert_same _ _ _ _ Hb). simpl.
  rewrite or_mask_test, (to_uint8_small _ Hm). f_equal.
  destruct (Z.eqb_spec (isset_byte_mask f) 0) as [Hz | Hz]; simpl.
  - by rewrite bool_decide_eq_false_2 by (intros Hne; by apply Hne).
  - by rewrite bool_decide_eq_true_2.
Qed.

Lemma flag_reads_back_witness :
  upb_struct_is_set [7; 0] opt1 = Some (bool_decide (isset_byte_mask opt1 <> 0)).
Proof.
  refine (proj1 (flag_reads_back [5; 0] [7; 0] opt1 _) _).
  - unfold is_uint8. simpl. lia.
  - reflexivity.
Defined.

(** X2: a call of [upb_struct_set] or [upb_struct_unset] on [f] does not
    change what [upb_struct_is_set] answers for a field [g] whose presence
    bit is in another byte, or whose mask has no bit in common with
    [f]'s. *)
Theorem flag_call_keeps_other_flags (s s1 : buffer) (f g : upb_struct_field) :
  is_uint8 (isset_byte_mask g) ->
  isset_byte_offset g <> isset_byte_offset f \/
    Z.land (isset_byte_mask g) (isset_byte_mask f) = 0 ->
  upb_struct_set s f = Some s1 \/ upb_struct_unset s f = Some s1 ->
  upb_struct_is_set s1 g = upb_struct_is_set s g.
Proof.
  intros Hg Hsep Hcall. unfold upb_struct_is_set.
  destruct (decide (isset_byte_offset g = isset_byte_offset f)) as [Heq | Hne].
  - destruct Hsep as [? | Hdisj]; [done |]. rewrite Heq.
    destruct Hcall as [(b & Hb & ->)%upb_struct_set_Some
                      | (b & Hb & ->)%upb_struct_unset_Some];
      rewrite (read_insert_same _ _ _ _ Hb), Hb; simpl.
    + by rewrite or_mask_other.
    + by rewrite and_not_mask_other.
  - destruct Hcall as [(b & Hb%read_byte_Some & ->)%upb_struct_set_Some
                      | (b & Hb%read_byte_Some & ->)%upb_struct_unset_Some];
      by rewrite read_insert_other by lia.
Qed.

Lemma flag_call_keeps_other_flags_witness :
  upb_struct_is_set [1; 0] opt1 = upb_struct_is_set [0; 0] opt1.
Proof.
  refine (flag_call_keeps_other_flags [0; 0] [1; 0] req0 opt1 _ _ _).
  - unfold is_uint8. simpl. lia.
  - right. reflexivity.
  - left. reflexivity.
Defined.

Lemma upb_struct_set_swap s f g :
  (s1 ← upb_struct_set s f; upb_struct_set s1 g) =
  (s1 ← upb_struct_set s g; upb_struct_set s1 f).
Proof. apply update_byte_commute. intros _ b. apply or_or_swap. Qed.

(** X3: the order of two flag calls does not matter.  Two
    [upb_struct_set], or two [upb_struct_unset], can always be swapped; an
    [upb_struct_set] of [f] and an [upb_struct_unset] of [g] can be swapped
    when the two presence bits are in different bytes or the masks have no
    bit in common.  The swapped sequence also fails exactly when the
    original does. *)
Theorem flag_calls_commute (s : buffer) (f g : upb_struct_field) :
  (s1 ← upb_struct_set s f; upb_struct_set s1 g) =
    (s1 ← upb_struct_set s g; upb_struct_set s1 f) /\
  (s1 ← upb_struct_unset s f; upb_struct_unset s1 g) =
    (s1 ← upb_struct_unset s g; upb_struct_unset s1 f) /\
  (isset_byte_offset f <> isset_byte_offset g \/
     Z.land (isset_byte_mask f) (isset_byte_mask g) = 0 ->
   (s1 ← upb_struct_set s f; upb_struct_unset s1 g) =
     (s1 ← upb_struct_unset s g; upb_struct_set s1 f)).
Proof.
  split; [| split].
  - apply upb_struct_set_swap.
  - apply update_byte_commute. intros _ b. apply and_and_swap.
  - intros Hsep. apply update_byte_commute. intros Heq b.
    destruct Hsep as [? | Hdisj]; [done |]. by apply or_and_swap.
Qed.

Lemma flag_calls_commute_witness :
  (s1 ← upb_struct_set [4; 0] req0; upb_struct_unset s1 opt1) =
  (s1 ← upb_struct_unset [4; 0] opt1; upb_struct_set s1 req0).
Proof.
  refine (proj2 (proj2 (flag_calls_commute [4; 0] req0 opt1)) _).
  right. reflexivity.
Defined.

(** X4: [upb_struct_set] and [upb_struct_unset] are defined exactly when
    the presence byte lies inside the buffer, and [upb_struct_is_set] too;
    a call that is defined keeps the length of the buffer and changes no
    cell other than the presence byte. *)
Theorem flag_call_bounds_and_frame (s : buffer) (f : upb_struct_field) :
  let inside := 0 <= isset_byte_offset f < Z.of_nat (length s) in
  (is_Some (upb_struct_set s f) <-> inside) /\
  (is_Some (upb_struct_unset s f) <-> inside) /\
  (is_Some (upb_struct_is_set s f) <-> inside) /\
  (forall s1,
     upb_struct_set s f = Some s1 \/ upb_struct_unset s f = Some s1 ->
     length s1 = length s /\
     forall j, j <> isset_byte_offset f -> read_byte s1 j = read_byte s j).
Proof.
  assert (Hdef : forall h,
    is_Some (update_byte s (isset_byte_offset f) h) <->
    0 <= isset_byte_offset f < Z.of_nat (length s)).
  { intros h. rewrite <- not_eq_None_Some, update_byte_None.
    split; [| by intros ? ?]. intros Hnn.
    destruct (decide (0 <= isset_byte_offset f < Z.of_nat (length s))); done. }
  simpl. split; [rewrite upb_struct_set_update; apply Hdef |].
  split; [rewrite upb_struct_unset_update; apply Hdef |].
  split.
  - unfold upb_struct_is_set. split.
    + intros [r Hr].
      destruct (read_byte s (isset_byte_offset f)) as [b |] eqn:Hb; [| done].
      by apply read_byte_Some in Hb.
    + intros Hin. destruct (read_byte_in_bounds s _ Hin) as [b ->]. by eexists.
  - intros s1 Hcall. split.
    + destruct Hcall as [H | H]; by apply update_byte_length in H.
    + intros j Hj.
      destruct Hcall as [H | H];
        by apply (update_byte_read_other _ _ _ _ j) in H.
Qed.

Lemma flag_call_bounds_and_frame_witness :
  length [7; 9] = length [5; 9] /\
  forall j, j <> isset_byte_offset opt1 -> read_byte [7; 9] j = read_byte [5; 9] j.
Proof.
  refine (proj2 (proj2 (proj2 (flag_call_bounds_and_frame [5; 9] opt1))) [7; 9] _).
  left. reflexivity.
Defined.

(** * Further properties of the typed accessors *)

Lemma load_bytes_Some s p n bs :
  load_bytes s p n = Some bs <->
  (0 <= p /\ p + Z.of_nat n <= Z.of_nat (length s)) /\
  bs = take n (drop (Z.to_nat p) s).
Proof.
  unfold load_bytes. case_decide; split.
  - by intros [= <-].
  - by intros [_ ->].
  - done.
  - by intros [? _].
Qed.

Lemma load_bytes_length s p n bs :
  load_bytes s p n = Some bs -> length bs = n.
Proof.
  intros [Hb ->]%load_bytes_Some. rewrite length_take, length_drop. lia.
Qed.

Lemma load_bytes_wf s p n bs :
  wf_buffer s -> load_bytes s p n = Some bs -> wf_buffer bs.
Proof. intros Hwf [_ ->]%load_bytes_Some. by apply Forall_take, Forall_drop. Qed.

(** Reading back the bytes just read changes nothing. *)
Lemma store_bytes_loaded s p n bs :
  load_bytes s p n = Some bs -> store_bytes s p bs = Some s.
Proof.
  intros Hld. pose proof (load_bytes_length _ _ _ _ Hld) as Hlen.
  apply load_bytes_Some in Hld as [Hb ->].
  apply store_bytes_Some. rewrite Hlen. split; [done |].
  by rewrite <- drop_drop, !take_drop.
Qed.

Lemma store_bytes_overwrite s p bs1 bs2 s1 :
  length bs1 = length bs2 ->
  store_bytes s p bs1 = Some s1 ->
  store_bytes s1 p bs2 = store_bytes s p bs2.
Proof.
  intros Hlen Hst. pose proof (store_bytes_length _ _ _ _ Hst) as Hl.
  apply store_bytes_Some in Hst as [Hb ->].
  unfold store_bytes. rewrite Hl, <- Hlen.
  destruct (decide (0 <= p /\ p + Z.of_nat (length bs1) <= Z.of_nat (length s)));
    [| done].
  f_equal. rewrite take_app_length' by (rewrite length_take; lia).
  do 2 f_equal.
  rewrite drop_app_ge by (rewrite length_take; lia).
  rewrite length_take, drop_app_ge by lia.
  rewrite drop_drop. f_equal. lia.
Qed.

Lemma store_bytes_read_other s p bs s' j :
  store_bytes s p bs = Some s' -> ~ in_slot p (length bs) j ->
  read_byte s' j = read_byte s j.
Proof.
  intros Hst Hout. unfold read_byte. case_decide; [| done].
  eapply store_bytes_lookup_other; [done |].
  apply store_bytes_Some in Hst as [Hb _]. unfold in_slot in Hout. lia.
Qed.

Lemma load_bytes_insert_other (s : buffer) i v q n :
  0 <= i -> ~ in_slot q n i ->
  load_bytes (<[Z.to_nat i := v]> s) q n = load_bytes s q n.
Proof.
  intros Hi Hout. unfold load_bytes. rewrite length_insert.
  case_decide; [| done]. f_equal. apply list_eq. intros k.
  rewrite !lookup_take. case_decide; [| done]. rewrite !lookup_drop.
  apply list_lookup_insert_ne. unfold in_slot in Hout. lia.
Qed.

Lemma le_value_range bs :
  wf_buffer bs -> 0 <= le_value bs < 256 ^ Z.of_nat (length bs).
Proof.
  induction 1 as [| b bs Hb Hbs IH]; [simpl; lia |].
  cbn [le_value length]. rewrite Nat2Z.inj_succ, Z.pow_succ_r by lia.
  unfold is_uint8 in Hb. lia.
Qed.

Lemma le_bytes_le_value bs :
  wf_buffer bs -> le_bytes (length bs) (le_value bs) = bs.
Proof.
  induction 1 as [| b bs Hb Hbs IH]; [done |].
  cbn [le_value length le_bytes]. unfold is_uint8 in Hb.
  rewrite (Z.mul_comm 256), Z.mod_add, Z.div_add, Z.mod_small, Z.div_small
    by lia.
  by rewrite Z.add_0_l, IH.
Qed.

Lemma le_bytes_add_multiple n v c :
  le_bytes n (v + c * 256 ^ Z.of_nat n) = le_bytes n v.
Proof.
  revert v c. induction n as [| n IH]; intros v c; [done |].
  cbn [le_bytes]. rewrite Nat2Z.inj_succ, Z.pow_succ_r by lia.
  replace (v + c * (256 * 256 ^ Z.of_nat n))
    with (v + c * 256 ^ Z.of_nat n * 256) by lia.
  rewrite Z.mod_add, Z.div_add by lia. by rewrite IH.
Qed.

Section MoreAccessorProperties.

Variable abi : target.

Lemma host_order_wf bs : wf_buffer bs -> wf_buffer (host_order abi bs).
Proof.
  unfold host_order. destruct (big_endian abi); [| done]. apply Forall_reverse.
Qed.

(** An object representation made of bytes stands for a value of the
    type, if for any. *)
Lemma object_value_has_type t bs v :
  wf_buffer bs -> length bs = sizeof abi t ->
  object_value abi t bs = Some v -> has_type abi t v.
Proof.
  intros Hwf Hlen. unfold object_value.
  pose proof (le_value_range _ (host_order_wf _ Hwf)) as Hu.
  rewrite length_host_order, Hlen, pow_256_width in Hu.
  set (u := le_value (host_order abi bs)) in *.
  assert (Hsigned : forall w, 0 < w -> 0 <= u < 2 ^ w ->
            (if is_signed Cint32 && (2 ^ (w - 1) <=? u)
             then Some (u - 2 ^ w) else Some u) = Some v ->
            - 2 ^ (w - 1) <= v < 2 ^ (w - 1)).
  { intros w Hw Hr. simpl.
    assert (H2 : 2 ^ w = 2 * 2 ^ (w - 1)).
    { rewrite <- Z.pow_succ_r by lia. f_equal. lia. }
    destruct (Z.leb_spec (2 ^ (w - 1)) u); intros [= <-]; lia. }
  destruct t; simpl.
  - by intros [= <-].
  - by intros [= <-].
  - apply (Hsigned 32); [lia | done].
  - apply (Hsigned 64); [lia | done].
  - by intros [= <-].
  - by intros [= <-].
  - case_decide; [| done]. intros [= <-]. lia.
  - by intros [= <-].
Qed.

(** ... and is the object representation of that value. *)
Lemma object_bytes_object_value t bs v :
  wf_buffer bs -> length bs = sizeof abi t ->
  object_value abi t bs = Some v -> object_bytes abi t v = bs.
Proof.
  intros Hwf Hlen. unfold object_value, object_bytes.
  pose proof (le_bytes_le_value _ (host_order_wf _ Hwf)) as Hrt.
  rewrite length_host_order, Hlen in Hrt.
  set (u := le_value (host_order abi bs)) in *.
  assert (Hback : host_order abi (le_bytes (sizeof abi t) u) = bs)
    by (by rewrite Hrt, host_order_involutive).
  assert (Hwrap : host_order abi (le_bytes (sizeof abi t) (u - 2 ^ width abi t))
                  = bs).
  { rewrite <- pow_256_width.
    replace (u - 256 ^ Z.of_nat (sizeof abi t))
      with (u + (-1) * 256 ^ Z.of_nat (sizeof abi t)) by lia.
    by rewrite le_bytes_add_multiple. }
  destruct t; simpl; try (by intros [= <-]).
  - destruct (_ <=? _); by intros [= <-].
  - destruct (_ <=? _); by intros [= <-].
  - case_decide; [| done]. by intros [= <-].
Qed.

Lemma load_Some_bounds t s p v :
  load abi t s p = Some v ->
  0 <= p /\ p + Z.of_nat (sizeof abi t) <= Z.of_nat (length s).
Proof.
  unfold load. destruct (load_bytes s p (sizeof abi t)) as [bs |] eqn:Hld;
    [| done].
  by apply load_bytes_Some in Hld as [Hb _].
Qed.

Lemma store_Some t s p v s' :
  store abi t s p v = Some s' ->
  (0 <= p /\ p + Z.of_nat (sizeof abi t) <= Z.of_nat (length s)) /\
  length s' = length s.
Proof.
  unfold store. intros Hst. split.
  - apply store_bytes_Some in Hst as [Hb _].
    by rewrite length_object_bytes in Hb.
  - by eapply store_bytes_length.
Qed.

Lemma load_has_type t s p v :
  wf_buffer s -> load abi t s p = Some v -> has_type abi t v.
Proof.
  unfold load. intros Hwf.
  destruct (load_bytes s p (sizeof abi t)) as [bs |] eqn:Hld; [simpl | done].
  apply object_value_has_type.
  - by eapply load_bytes_wf.
  - by eapply load_bytes_length.
Qed.

Lemma store_loaded t s p v :
  wf_buffer s -> load abi t s p = Some v -> store abi t s p v = Some s.
Proof.
  unfold load, store. intros Hwf.
  destruct (load_bytes s p (sizeof abi t)) as [bs |] eqn:Hld; [simpl | done].
  intros Hval. rewrite (object_bytes_object_value t bs v).
  - by eapply store_bytes_loaded.
  - by eapply load_bytes_wf.
  - by eapply load_bytes_length.
  - done.
Qed.

Lemma store_overwrite t s p v1 v2 s1 :
  store abi t s p v1 = Some s1 -> store abi t s1 p v2 = store abi t s p v2.
Proof.
  unfold store. apply store_bytes_overwrite. by rewrite !length_object_bytes.
Qed.

Lemma store_read_other t s p v s' j :
  store abi t s p v = Some s' -> ~ in_slot p (sizeof abi t) j ->
  read_byte s' j = read_byte s j.
Proof.
  unfold store. intros Hst Hout. eapply store_bytes_read_other; [done |].
  by rewrite length_object_bytes.
Qed.

End MoreAccessorProperties.

Lemma load_bytes_one s p :
  load_bytes s p 1 = b ← read_byte s p; Some [b].
Proof.
  unfold load_bytes, read_byte.
  destruct (decide (0 <= p)) as [Hp | Hp].
  - destruct (s !! Z.to_nat p) as [b |] eqn:Hb; simpl.
    + pose proof (lookup_lt_Some _ _ _ Hb). rewrite decide_True by lia.
      f_equal. rewrite <- (Nat.add_0_r (Z.to_nat p)), <- lookup_drop in Hb.
      by destruct (drop (Z.to_nat p) s) as [| x l]; simplify_eq/=.
    + apply lookup_ge_None in Hb. by rewrite decide_False by lia.
  - by rewrite decide_False by lia.
Qed.

(** X5: the flags and the values do not interfere.  When the presence
    byte of [f] is not one of the cells of the slot of [g], a call of
    [upb_struct_set] or [upb_struct_unset] on [f] leaves the value read
    from [g] as it was, and writing a value to [g] leaves the flag of [f]
    as it was. *)
Theorem flags_and_values_independent (abi : target) (t : ctype)
    (s s1 : buffer) (f g : upb_struct_field) (v : Z) :
  ~ in_slot (byte_offset g) (sizeof abi t) (isset_byte_offset f) ->
  (upb_struct_set s f = Some s1 \/ upb_struct_unset s f = Some s1 ->
   upb_struct_get_T abi t s1 g = upb_struct_get_T abi t s g) /\
  (upb_struct_set_T abi t s g v = Some s1 ->
   upb_struct_is_set s1 f = upb_struct_is_set s f).
Proof.
  intros Hout. split.
  - unfold upb_struct_get_T, upb_struct_get_T_ptr, load.
    intros [(b & Hb%read_byte_Some & ->)%upb_struct_set_Some
           | (b & Hb%read_byte_Some & ->)%upb_struct_unset_Some];
      by rewrite load_bytes_insert_other by (lia || done).
  - unfold upb_struct_set_T, upb_struct_get_T_ptr, upb_struct_is_set.
    intros Hst. by rewrite (store_read_other abi _ _ _ _ _ _ Hst Hout).
Qed.

Lemma flags_and_values_independent_witness :
  upb_struct_get_T le64 Cint32 [1; 7; 0; 0; 0] req0 =
  upb_struct_get_T le64 Cint32 [0; 7; 0; 0; 0] req0.
Proof.
  refine (proj1 (flags_and_values_independent le64 Cint32
                   [0; 7; 0; 0; 0] [1; 7; 0; 0; 0] req0 req0 0 _) _).
  - unfold in_slot. simpl. lia.
  - left. reflexivity.
Defined.

(** X6: writing a value to a field keeps the length of the buffer, changes
    no cell outside the slot of the field, and leaves the value read from
    any field whose slot does not overlap it as it was, at whatever type
    that field is read. *)
Theorem typed_set_frame (abi : target) (t : ctype)
    (s s1 : buffer) (f : upb_struct_field) (v : Z) :
  upb_struct_set_T abi t s f v = Some s1 ->
  length s1 = length s /\
  (forall j, ~ in_slot (byte_offset f) (sizeof abi t) j ->
     read_byte s1 j = read_byte s j) /\
  (forall t' g,
     byte_offset g + Z.of_nat (sizeof abi t') <= byte_offset f \/
     byte_offset f + Z.of_nat (sizeof abi t) <= byte_offset g ->
     upb_struct_get_T abi t' s1 g = upb_struct_get_T abi t' s g).
Proof.
  unfold upb_struct_set_T, upb_struct_get_T, upb_struct_get_T_ptr.
  intros Hst. split; [| split].
  - by apply store_Some in Hst as [_ ?].
  - intros j Hj. by eapply store_read_other.
  - intros t' g Hsep. by eapply load_store_other.
Qed.

Lemma typed_set_frame_witness :
  length [3; 254; 255; 255; 255; 9; 0; 0; 0; 8] =
  length [3; 1; 0; 0; 0; 9; 0; 0; 0; 8].
Proof.
  refine (proj1 (typed_set_frame le64 Cint32 [3; 1; 0; 0; 0; 9; 0; 0; 0; 8]
                   _ req0 (-2) _)).
  reflexivity.
Defined.

(** X7: the last write wins.  Writing [v2] to a field after [v1] leaves
    the buffer that writing [v2] alone leaves. *)
Theorem typed_set_overwrites (abi : target) (t : ctype)
    (s s1 : buffer) (f : upb_struct_field) (v1 v2 : Z) :
  upb_struct_set_T abi t s f v1 = Some s1 ->
  upb_struct_set_T abi t s1 f v2 = upb_struct_set_T abi t s f v2.
Proof. unfold upb_struct_set_T. apply store_overwrite. Qed.

Lemma typed_set_overwrites_witness :
  upb_struct_set_T be32 Cuint32 [0; 0; 0; 0; 9; 7] req0 5 =
  upb_struct_set_T be32 Cuint32 [0; 1; 2; 3; 4; 7] req0 5.
Proof.
  refine (typed_set_overwrites be32 Cuint32 [0; 1; 2; 3; 4; 7] _ req0 9 5 _).
  reflexivity.
Defined.

(** X8: writing back the value just read from a field changes nothing, in
    a buffer of bytes. *)
Theorem typed_get_then_set (abi : target) (t : ctype)
    (s : buffer) (f : upb_struct_field) (v : Z) :
  wf_buffer s ->
  upb_struct_get_T abi t s f = Some v ->
  upb_struct_set_T abi t s f v = Some s.
Proof. unfold upb_struct_get_T, upb_struct_set_T. apply store_loaded. Qed.

Lemma typed_get_then_set_witness :
  upb_struct_set_T be32 Cint32 [0; 255; 255; 255; 254; 7] req0 (-2) =
  Some [0; 255; 255; 255; 254; 7].
Proof.
  refine (typed_get_then_set be32 Cint32 [0; 255; 255; 255; 254; 7] req0 (-2) _ _).
  - repeat constructor; unfold is_uint8; lia.
  - reflexivity.
Defined.

(** X9: a value read from a buffer of bytes is a value of the type read:
    within the range of the integer type, 0 or 1 for [bool]. *)
Theorem typed_get_in_range (abi : target) (t : ctype)
    (s : buffer) (f : upb_struct_field) (v : Z) :
  wf_buffer s ->
  upb_struct_get_T abi t s f = Some v ->
  has_type abi t v.
Proof. unfold upb_struct_get_T. apply load_has_type. Qed.

Lemma typed_get_in_range_witness : has_type le64 Cint32 (-2).
Proof.
  refine (typed_get_in_range le64 Cint32 [0; 254; 255; 255; 255; 7] req0 (-2) _ _).
  - repeat constructor; unfold is_uint8; lia.
  - reflexivity.
Defined.

(** The accessors are defined exactly when the slot lies inside the
    buffer: the write at every type, and the read at every type but [bool];
    reading a [bool] also needs the cell to hold less than 2. *)
Lemma typed_accessor_bounds (abi : target) (t : ctype)
    (s : buffer) (f : upb_struct_field) (v : Z) :
  let inside := 0 <= byte_offset f /\
                byte_offset f + Z.of_nat (sizeof abi t) <= Z.of_nat (length s) in
  (is_Some (upb_struct_set_T abi t s f v) <-> inside) /\
  (t <> Cbool -> (is_Some (upb_struct_get_T abi t s f) <-> inside)) /\
  (is_Some (upb_struct_get_T abi Cbool s f) <->
   exists b, read_byte s (byte_offset f) = Some b /\ b < 2).
Proof.
  unfold upb_struct_set_T, upb_struct_get_T, upb_struct_get_T_ptr. simpl.
  split; [| split].
  - split.
    + intros [s' Hst]. by apply store_Some in Hst as [? _].
    + intros [? ?]. by apply store_in_bounds.
  - intros Ht. split.
    + intros [r Hr]. by apply load_Some_bounds in Hr.
    + intros Hin. unfold load, load_bytes. rewrite decide_True by done. simpl.
      unfold object_value. destruct t; try done; simpl;
        try (by eexists); by destruct (_ <=? _); eexists.
  - unfold load. change (sizeof abi Cbool) with 1%nat.
    rewrite load_bytes_one.
    destruct (read_byte s (byte_offset f)) as [b |]; simpl.
    + unfold object_value.
      assert (Hb : le_value (host_order abi [b]) = b).
      { unfold host_order. destruct (big_endian abi); simpl; lia. }
      rewrite Hb. split.
      * intros [r Hr]. case_decide; [| done]. eauto.
      * intros (b' & [= <-] & Hlt). rewrite decide_True by done. by eexists.
    + split; [by intros [? ?] | by intros (? & ? & _)].
Qed.

(** * Further properties of clearing and of the required-field check *)

Lemma memset_lookup_other s c n s' (j : nat) :
  memset s c n = Some s' -> (Z.to_nat n <= j)%nat -> s' !! j = s !! j.
Proof.
  unfold memset. case_decide as Hn; [| done]. intros [= <-] Hj.
  rewrite lookup_app_r by (rewrite length_replicate; lia).
  rewrite length_replicate, lookup_drop. f_equal. lia.
Qed.

Lemma memset_twice s c n s' :
  memset s c n = Some s' -> memset s' c n = Some s'.
Proof.
  intros Hm. pose proof (proj1 (memset_Some _ _ _ _ Hm)) as Hlen.
  unfold memset in *. rewrite Hlen. case_decide as Hn; [| done].
  injection Hm as <-. f_equal. f_equal.
  by rewrite drop_app_length' by (by rewrite length_replicate).
Qed.

(** X10: [upb_struct_clear] is defined exactly when the presence region
    lies inside the buffer.  It keeps the length of the buffer and every
    cell from [set_flags_bytes] on, so a value stored past the presence
    region reads as before; clearing twice is clearing once. *)
Theorem clear_bounds_and_frame (s : buffer) (d : upb_struct_definition) :
  (is_Some (upb_struct_clear s d) <->
   0 <= set_flags_bytes d <= Z.of_nat (length s)) /\
  (forall s1, upb_struct_clear s d = Some s1 ->
     length s1 = length s /\
     (forall j, set_flags_bytes d <= j -> read_byte s1 j = read_byte s j) /\
     (forall abi t g, set_flags_bytes d <= byte_offset g ->
        upb_struct_get_T abi t s1 g = upb_struct_get_T abi t s g) /\
     upb_struct_clear s1 d = Some s1).
Proof.
  unfold upb_struct_clear. split.
  - unfold memset. case_decide as Hn.
    + split; [done | by eexists].
    + split; [by intros [? ?] | done].
  - intros s1 Hm. pose proof (memset_Some _ _ _ _ Hm) as [Hlen _].
    split; [done |]. split; [| split].
    + intros j Hj. by eapply memset_other.
    + intros abi t g Hg.
      unfold upb_struct_get_T, upb_struct_get_T_ptr, load, load_bytes.
      rewrite Hlen. case_decide as Hb; [| done]. do 2 f_equal.
      apply list_eq. intros k. rewrite !lookup_take.
      destruct (decide (k < sizeof abi t)%nat); [| done]. rewrite !lookup_drop.
      apply (memset_lookup_other _ _ _ _ _ Hm). lia.
    + apply (memset_twice _ _ _ _ Hm).
Qed.

Lemma clear_bounds_and_frame_witness :
  is_Some (upb_struct_clear [3; 1; 2; 3; 4; 5; 6; 7; 8] one_required).
Proof.
  refine (proj2 (proj1 (clear_bounds_and_frame
                          [3; 1; 2; 3; 4; 5; 6; 7; 8] one_required)) _).
  simpl. lia.
Defined.

(** X11: in a cleared instance the check answers false as soon as the
    definition has a required field, and true when it has none. *)
Theorem clear_then_all_required (s s1 : buffer) (d : upb_struct_definition) :
  0 <= num_required_fields d ->
  0 < set_flags_bytes d ->
  upb_struct_clear s d = Some s1 ->
  upb_struct_all_required_fields_set s1 d =
    Some (bool_decide (num_required_fields d = 0)).
Proof.
  intros Hn Hflags Hclear. unfold upb_struct_clear in Hclear.
  apply memset_Some in Hclear as [_ Hzero].
  assert (Hb0 : read_byte s1 0 = Some 0) by (apply Hzero; lia).
  unfold upb_struct_all_required_fields_set.
  destruct (decide (8 < num_required_fields d)).
  - rewrite required_loop_step, Hb0 by done. simpl.
    by rewrite bool_decide_eq_false_2 by lia.
  - rewrite required_loop_last, Hb0 by lia. simpl. f_equal.
    apply bool_decide_ext. rewrite Z.shiftl_1_l. split.
    + intros H0. destruct (decide (num_required_fields d = 0)); [done |].
      assert (2 ^ 1 <= 2 ^ num_required_fields d)
        by (apply Z.pow_le_mono_r; lia).
      lia.
    + by intros ->.
Qed.

Lemma clear_then_all_required_witness :
  upb_struct_all_required_fields_set [0; 1; 2; 3; 4; 5; 6; 7; 8] one_required
    = Some (bool_decide (num_required_fields one_required = 0)).
Proof.
  refine (clear_then_all_required [3; 1; 2; 3; 4; 5; 6; 7; 8] _ one_required
            _ _ _).
  - simpl. lia.
  - simpl. lia.
  - reflexivity.
Defined.

Lemma required_loop_ext s s' n : forall i,
  (forall k, 0 <= k <= whole_bytes n -> read_byte s (i + k) = read_byte s' (i + k)) ->
  required_loop s n i = required_loop s' n i.
Proof.
  induction n as [n Hn | n Hn IH] using required_loop_ind; intros i Hsame.
  - destruct (decide (0 <= n)).
    + rewrite (required_loop_last s n i), (required_loop_last s' n i) by lia.
      pose proof (Hsame 0) as H0. rewrite Z.add_0_r in H0.
      rewrite H0; [done |]. rewrite whole_bytes_small; lia.
    + by rewrite !required_loop_negative by lia.
  - rewrite (required_loop_step s n i), (required_loop_step s' n i) by lia.
    pose proof (whole_bytes_nonneg (n - 8)).
    rewrite (whole_bytes_step n) in Hsame by lia.
    pose proof (Hsame 0 ltac:(lia)) as H0. rewrite Z.add_0_r in H0.
    rewrite H0.
    destruct (read_byte s' i) as [b |]; simpl; [| done].
    destruct (decide (b = 255)); [| done].
    apply IH. intros k Hk.
    replace (i + 1 + k) with (i + (k + 1)) by lia. apply Hsame. lia.
Qed.

(** X12: the check looks at cells 0 to [whole_bytes n] only, [n] being
    the number of required fields.  Two buffers that agree there get the
    same answer; so the answer is not changed by a flag call on a presence
    byte past these cells, nor by writing a value to a slot past them. *)
Theorem all_required_reads_prefix (s : buffer) (d : upb_struct_definition) :
  let last := whole_bytes (num_required_fields d) in
  (forall s', (forall k, 0 <= k <= last -> read_byte s k = read_byte s' k) ->
     upb_struct_all_required_fields_set s d =
     upb_struct_all_required_fields_set s' d) /\
  (forall f s1, last < isset_byte_offset f ->
     upb_struct_set s f = Some s1 \/ upb_struct_unset s f = Some s1 ->
     upb_struct_all_required_fields_set s1 d =
     upb_struct_all_required_fields_set s d) /\
  (forall abi t f v s1, last < byte_offset f ->
     upb_struct_set_T abi t s f v = Some s1 ->
     upb_struct_all_required_fields_set s1 d =
     upb_struct_all_required_fields_set s d).
Proof.
  simpl. unfold upb_struct_all_required_fields_set. split; [| split].
  - intros s' Hsame. by apply required_loop_ext.
  - intros f s1 Hf Hcall. apply required_loop_ext. intros k Hk.
    rewrite Z.add_0_l.
    destruct Hcall as [H | H];
      apply (update_byte_read_other _ _ _ _ k) in H; (done || lia).
  - intros abi t f v s1 Hf Hst. apply required_loop_ext. intros k Hk.
    rewrite Z.add_0_l. eapply store_read_other; [done |].
    unfold in_slot, upb_struct_get_T_ptr. lia.
Qed.

Lemma all_required_reads_prefix_witness :
  upb_struct_all_required_fields_set [1; 4; 0] one_required =
  upb_struct_all_required_fields_set [1; 0; 0] one_required.
Proof.
  refine (proj1 (proj2 (all_required_reads_prefix [1; 0; 0] one_required))
            {| byte_offset := 2; isset_byte_offset := 1; isset_byte_mask := 4 |}
            [1; 4; 0] _ _).
  - vm_compute. reflexivity.
  - left. reflexivity.
Defined.

(** X13: a true answer is sound, and it is lost with any required flag.
    When the check answers true, every field at a position below
    [num_required_fields] of the packing rule has its flag set; unsetting
    the flag of such a field makes the check answer false. *)
Theorem all_required_true_means_all_set
    (s : buffer) (d : upb_struct_definition) (j : Z) (f : upb_struct_field) :
  upb_struct_all_required_fields_set s d = Some true ->
  0 <= j < num_required_fields d ->
  packed_field j f ->
  upb_struct_is_set s f = Some true /\
  exists s1, upb_struct_unset s f = Some s1 /\
    upb_struct_all_required_fields_set s1 d = Some false.
Proof.
  intros Htrue Hj Hf.
  pose proof (all_required_true_sound _ _ _ _ Htrue Hj Hf) as Hset.
  split; [done |].
  assert (Hin : is_Some (upb_struct_unset s f)).
  { rewrite upb_struct_unset_update, <- not_eq_None_Some, update_byte_None.
    intros Hout. apply Hout. unfold upb_struct_is_set in Hset.
    destruct (read_byte s (isset_byte_offset f)) as [b |] eqn:Hb; [| done].
    by apply read_byte_Some in Hb. }
  destruct Hin as [s1 Hs1]. exists s1. split; [done |].
  by eapply all_required_unset_required.
Qed.

Lemma all_required_true_means_all_set_witness :
  upb_struct_is_set [255; 3; 0] {| byte_offset := 40; isset_byte_offset := 1;
                                   isset_byte_mask := 2 |} = Some true.
Proof.
  refine (proj1 (all_required_true_means_all_set [255; 3; 0] ten_required 9
                   _ _ _ _)).
  - vm_compute. reflexivity.
  - simpl. lia.
  - split; reflexivity.
Defined.

(** * Filling in an instance *)

Lemma ones_uint8 r : 0 <= r <= 8 -> is_uint8 (Z.ones r).
Proof.
  intros Hr. rewrite Z.ones_equiv. unfold is_uint8.
  assert (0 < 2 ^ r) by (apply Z.pow_pos_nonneg; lia).
  assert (2 ^ r <= 2 ^ 8) by (apply Z.pow_le_mono_r; lia).
  change (2 ^ 8) with 256 in *. lia.
Qed.

Lemma ones_or_next r :
  0 <= r -> Z.lor (Z.ones r) (Z.shiftl 1 r) = Z.ones (r + 1).
Proof.
  intros Hr. apply Z.bits_inj'; intros k Hk.
  rewrite Z.lor_spec, !Z.testbit_ones_nonneg, shiftl_1_testbit by lia.
  destruct (Z.ltb_spec k r), (Z.eqb_spec r k), (Z.ltb_spec k (r + 1));
    simpl; (done || lia).
Qed.

Lemma prefix_byte_zero k : 0 <= k -> prefix_byte 0 k = 0.
Proof.
  intros Hk. unfold prefix_byte.
  by replace (Z.min 8 (Z.max 0 (0 - 8 * k))) with 0 by lia.
Qed.

Lemma prefix_byte_current m :
  0 <= m -> prefix_byte m (m / 8) = Z.ones (m mod 8).
Proof.
  intros Hm. unfold prefix_byte. f_equal.
  pose proof (Z.div_mod m 8 ltac:(lia)).
  pose proof (Z.mod_pos_bound m 8 ltac:(lia)). lia.
Qed.

Lemma prefix_byte_next_current m :
  0 <= m -> prefix_byte (m + 1) (m / 8) = Z.ones (m mod 8 + 1).
Proof.
  intros Hm. unfold prefix_byte. f_equal.
  pose proof (Z.div_mod m 8 ltac:(lia)).
  pose proof (Z.mod_pos_bound m 8 ltac:(lia)). lia.
Qed.

Lemma prefix_byte_next_other m k :
  0 <= m -> k <> m / 8 -> prefix_byte (m + 1) k = prefix_byte m k.
Proof.
  intros Hm Hk. unfold prefix_byte. f_equal.
  pose proof (Z.div_mod m 8 ltac:(lia)).
  pose proof (Z.mod_pos_bound m 8 ltac:(lia)). lia.
Qed.

(** Setting the fields at positions [m], [m+1], ... in turn extends the
    run of set presence bits. *)
Lemma set_fields_prefix (B : Z) (fs : list upb_struct_field) :
  forall (m : Z) (s : buffer),
  0 <= m ->
  (forall (i : nat) f, fs !! i = Some f -> packed_field (m + Z.of_nat i) f) ->
  m + Z.of_nat (length fs) <= 8 * B ->
  B <= Z.of_nat (length s) ->
  (forall k, 0 <= k < B -> read_byte s k = Some (prefix_byte m k)) ->
  exists s', set_fields s fs = Some s' /\ length s' = length s /\
    forall k, 0 <= k < B ->
      read_byte s' k = Some (prefix_byte (m + Z.of_nat (length fs)) k).
Proof.
  induction fs as [| f fs IH]; intros m s Hm Hpacked Hfit Hlen Hinv.
  - exists s. simpl. rewrite Z.add_0_r. done.
  - destruct (Hpacked 0%nat f eq_refl) as [Hoff Hmask].
    rewrite Z.add_0_r in Hoff, Hmask. unfold presence_byte in Hoff.
    unfold presence_mask in Hmask.
    pose proof (Z.div_mod m 8 ltac:(lia)) as Hdm.
    pose proof (Z.mod_pos_bound m 8 ltac:(lia)) as Hmod.
    cbn [length] in Hfit. rewrite Nat2Z.inj_succ in Hfit.
    assert (Hbyte : 0 <= m / 8 < B) by lia.
    pose proof (Hinv _ Hbyte) as Hread. rewrite prefix_byte_current in Hread by done.
    assert (Hset : upb_struct_set s f =
              Some (<[Z.to_nat (m / 8) := Z.ones (m mod 8 + 1)]> s)).
    { apply upb_struct_set_Some. exists (Z.ones (m mod 8)).
      rewrite Hoff, Hmask. split; [done |].
      rewrite ones_or_next by lia.
      by rewrite (to_uint8_small _ (ones_uint8 (m mod 8 + 1) ltac:(lia))). }
    destruct (IH (m + 1) (<[Z.to_nat (m / 8) := Z.ones (m mod 8 + 1)]> s))
      as (s' & Hs' & Hlen' & Hinv').
    + lia.
    + intros i g Hg. replace (m + 1 + Z.of_nat i) with (m + Z.of_nat (S i)) by lia.
      by apply Hpacked.
    + lia.
    + by rewrite length_insert.
    + intros k Hk. destruct (decide (k = m / 8)) as [-> | Hne].
      * rewrite (read_insert_same _ _ _ _ Hread).
        by rewrite prefix_byte_next_current.
      * rewrite read_insert_other, prefix_byte_next_other by lia.
        by apply Hinv.
    + exists s'. cbn [set_fields]. rewrite Hset. simpl.
      split; [done |]. split; [by rewrite Hlen', length_insert |].
      intros k Hk. rewrite (Hinv' k Hk). do 2 f_equal.
      cbn [length]. lia.
Qed.

(** X14: the check accepts an instance that was filled in as the layout
    intends.  When the first [num_required_fields] fields of the
    definition follow the packing rule and the presence region holds their
    bits, then after [upb_struct_clear] and [upb_struct_set] on each of
    these fields [upb_struct_all_required_fields_set] answers true. *)
Theorem clear_then_set_required (s : buffer) (d : upb_struct_definition) :
  0 <= num_required_fields d <= 8 * set_flags_bytes d ->
  0 < set_flags_bytes d <= Z.of_nat (length s) ->
  num_required_fields d <= Z.of_nat (length (fields d)) ->
  (forall (j : nat) f, Z.of_nat j < num_required_fields d ->
     fields d !! j = Some f -> packed_field (Z.of_nat j) f) ->
  exists s1 s2,
    upb_struct_clear s d = Some s1 /\
    set_fields s1 (take (Z.to_nat (num_required_fields d)) (fields d)) = Some s2 /\
    upb_struct_all_required_fields_set s2 d = Some true.
Proof.
  set (n := num_required_fields d). set (B := set_flags_bytes d).
  intros Hn HB Hfields Hpacked.
  assert (Hclear : exists s1, upb_struct_clear s d = Some s1).
  { unfold upb_struct_clear, memset. rewrite decide_True by lia. by eexists. }
  destruct Hclear as [s1 Hclear].
  pose proof (memset_Some _ _ _ _ Hclear) as [Hlen1 Hzero].
  assert (Htake : length (take (Z.to_nat n) (fields d)) = Z.to_nat n)
    by (rewrite length_take; lia).
  destruct (set_fields_prefix B (take (Z.to_nat n) (fields d)) 0 s1)
    as (s2 & Hs2 & Hlen2 & Hinv).
  - lia.
  - intros i f Hi. rewrite Z.add_0_l.
    apply lookup_take_Some in Hi as [Hi Hlt]. apply Hpacked; [lia | done].
  - rewrite Htake. lia.
  - lia.
  - intros k Hk. rewrite prefix_byte_zero by lia. by apply Hzero.
  - exists s1, s2. split; [done |]. split; [done |].
    rewrite Htake, Z.add_0_l, Z2Nat.id in Hinv by lia.
    unfold upb_struct_all_required_fields_set. fold n.
    apply required_loop_true; [lia |]. rewrite !Z.add_0_l.
    pose proof (whole_bytes_nonneg n) as Hq.
    pose proof (remaining_bits_range n ltac:(lia)) as Hr.
    assert (Hqb : whole_bytes n < B).
    { unfold whole_bytes. case_decide; [| lia].
      apply Z.div_lt_upper_bound; lia. }
    split.
    + intros k Hk. rewrite Z.add_0_l, Hinv by lia. f_equal.
      unfold prefix_byte.
      assert (H8 : 8 <= n - 8 * k).
      { revert Hk. unfold whole_bytes. case_decide; [| lia].
        pose proof (Z.div_mod (n - 1) 8 ltac:(lia)).
        pose proof (Z.mod_pos_bound (n - 1) 8 ltac:(lia)). lia. }
      by replace (Z.min 8 (Z.max 0 (n - 8 * k))) with 8 by lia.
    + rewrite Hinv by lia. f_equal. unfold prefix_byte.
      fold (remaining_bits n).
      by replace (Z.min 8 (Z.max 0 (remaining_bits n)))
        with (remaining_bits n) by lia.
Qed.

Lemma clear_then_set_required_witness :
  exists s1 s2,
    upb_struct_clear [9; 9; 9; 9; 9; 9; 9; 9; 9] one_required = Some s1 /\
    set_fields s1 (take (Z.to_nat (num_required_fields one_required))
                        (fields one_required)) = Some s2 /\
    upb_struct_all_required_fields_set s2 one_required = Some true.
Proof.
  apply clear_then_set_required.
  - simpl. lia.
  - simpl. lia.
  - simpl. lia.
  - simpl. intros j f Hj. assert (j = 0%nat) as -> by lia.
    intros [= <-]. split; reflexivity.
Defined.

(** X15: after [upb_struct_clear] and [upb_struct_set] of one field [f],
    exactly the flag of [f] is set: [upb_struct_is_set] is true for a
    field whose presence bit is the bit of [f] and false for every other
    field of the presence region (masks being single bits). *)
Theorem clear_then_set_one
    (s s1 s2 : buffer) (d : upb_struct_definition) (f g : upb_struct_field) :
  single_bit (isset_byte_mask f) ->
  single_bit (isset_byte_mask g) ->
  0 <= isset_byte_offset f < set_flags_bytes d ->
  0 <= isset_byte_offset g < set_flags_bytes d ->
  upb_struct_clear s d = Some s1 ->
  upb_struct_set s1 f = Some s2 ->
  upb_struct_is_set s2 g =
    Some (bool_decide (isset_byte_offset g = isset_byte_offset f /\
                       isset_byte_mask g = isset_byte_mask f)).
Proof.
  intros (j & Hj & Hmf) (k & Hk & Hmg) Hf Hg Hclear Hset.
  apply memset_Some in Hclear as [_ Hzero].
  apply upb_struct_set_Some in Hset as (b & Hb & ->).
  rewrite (Hzero _ Hf) in Hb. injection Hb as <-.
  change (to_uint8 0) with 0 in Hzero.
  unfold upb_struct_is_set. rewrite Z.lor_0_l, Hmf, Hmg.
  assert (Hjbyte : to_uint8 (Z.shiftl 1 j) = Z.shiftl 1 j).
  { apply to_uint8_small. rewrite Z.shiftl_1_l. unfold is_uint8.
    assert (0 < 2 ^ j) by (apply Z.pow_pos_nonneg; lia).
    assert (2 ^ j <= 2 ^ 7) by (apply Z.pow_le_mono_r; lia).
    change (2 ^ 7) with 128 in *. lia. }
  destruct (decide (isset_byte_offset g = isset_byte_offset f)) as [Heq | Hne].
  - rewrite Heq, (read_insert_same _ _ _ 0) by (by apply Hzero). simpl.
    rewrite Hjbyte, land_single_bit_is_zero, negb_involutive,
      shiftl_1_testbit by lia.
    f_equal. destruct (Z.eqb_spec j k) as [-> | Hjk].
    + by rewrite bool_decide_eq_true_2.
    + rewrite bool_decide_eq_false_2; [done |].
      intros [_ Hm]. apply shiftl_1_inj in Hm; lia.
  - rewrite read_insert_other, (Hzero _ Hg) by lia. simpl.
    rewrite bool_decide_eq_false_2; [done |]. by intros [? _].
Qed.

Lemma clear_then_set_one_witness :
  upb_struct_is_set [2; 1; 2; 3; 4; 5; 6; 7; 8] req0 =
    Some (bool_decide (isset_byte_offset req0 = isset_byte_offset opt1 /\
                       isset_byte_mask req0 = isset_byte_mask opt1)).
Proof.
  refine (clear_then_set_one [3; 1; 2; 3; 4; 5; 6; 7; 8] _ _ one_required
            opt1 req0 _ _ _ _ _ _).
  - exists 1. simpl. split; [lia | reflexivity].
  - exists 0. simpl. split; [lia | reflexivity].
  - simpl. lia.
  - simpl. lia.
  - reflexivity.
  - reflexivity.
Defined.

(** * Every cell stays a byte *)

(** X16: none of the functions that write to a buffer leaves anything but
    a byte in a cell: from a buffer of bytes, [upb_struct_set],
    [upb_struct_unset], [upb_struct_clear], the typed write to a field and
    the typed write to an array element all give a buffer of bytes,
    whatever the mask or the value written. *)
Theorem writes_keep_bytes (s : buffer) :
  wf_buffer s ->
  (forall f s1,
     upb_struct_set s f = Some s1 \/ upb_struct_unset s f = Some s1 ->
     wf_buffer s1) /\
  (forall d s1, upb_struct_clear s d = Some s1 -> wf_buffer s1) /\
  (forall abi t f v s1,
     upb_struct_set_T abi t s f v = Some s1 -> wf_buffer s1) /\
  (forall abi t a n v s1,
     upb_array_set_T abi t s a n v = Some s1 -> wf_buffer s1).
Proof.
  intros Hwf. split; [| split; [| split]].
  - intros f s1 [H | H];
      [by eapply upb_struct_set_wf | by eapply upb_struct_unset_wf].
  - intros d s1. by apply upb_struct_clear_wf.
  - intros abi t f v s1. by apply store_wf.
  - intros abi t a n v s1. by apply store_wf.
Qed.

Lemma writes_keep_bytes_witness : wf_buffer [0; 254; 255; 255; 255; 9].
Proof.
  refine (proj1 (proj2 (proj2 (writes_keep_bytes [0; 1; 2; 3; 4; 9] _)))
            le64 Cuint32 req0 (-2) _ _).
  - repeat constructor; unfold is_uint8; lia.
  - reflexivity.
Defined.

(** * Arrays *)

(** X17: the array accessors check nothing against [len].  The write to
    element [n] is defined exactly when the bytes of the element lie inside
    the memory, wherever [n] is; the read does not depend on [len]; and a
    write keeps the length of the memory and every cell outside the
    element. *)
Theorem array_set_bounds_and_frame (abi : target) (t : ctype)
    (m : buffer) (a : upb_array) (n v : Z) :
  let p := data a + n * Z.of_nat (sizeof abi t) in
  (is_Some (upb_array_set_T abi t m a n v) <->
   0 <= p /\ p + Z.of_nat (sizeof abi t) <= Z.of_nat (length m)) /\
  (forall l, upb_array_get_T abi t m {| len := l; data := data a |} n =
             upb_array_get_T abi t m a n) /\
  (forall m', upb_array_set_T abi t m a n v = Some m' ->
     length m' = length m /\
     forall j, ~ in_slot p (sizeof abi t) j -> read_byte m' j = read_byte m j).
Proof.
  unfold upb_array_set_T, upb_array_get_T, upb_array_get_T_ptr. simpl.
  split; [| split].
  - split.
    + intros [m' Hst]. by apply store_Some in Hst as [? _].
    + intros [? ?]. by apply store_in_bounds.
  - done.
  - intros m' Hst. split.
    + by apply store_Some in Hst as [_ ?].
    + intros j Hj. by eapply store_read_other.
Qed.

Lemma array_set_bounds_and_frame_witness :
  is_Some (upb_array_set_T le64 Cint32 [0; 0; 0; 0; 0; 0; 0; 0; 0; 0; 0; 0]
             {| len := 1; data := 0 |} 2 7).
Proof.
  refine (proj2 (proj1 (array_set_bounds_and_frame le64 Cint32
            [0; 0; 0; 0; 0; 0; 0; 0; 0; 0; 0; 0] {| len := 1; data := 0 |} 2 7)) _).
  simpl. lia.
Defined.

(** * More on filling in an instance and on the check *)

Lemma set_fields_swap s f g fs :
  set_fields s (f :: g :: fs) = set_fields s (g :: f :: fs).
Proof.
  cbn [set_fields]. pose proof (upb_struct_set_swap s f g) as Hswap.
  destruct (upb_struct_set s f) as [s1 |], (upb_struct_set s g) as [s2 |];
    simpl in *.
  - destruct (upb_struct_set s1 g) as [s3 |], (upb_struct_set s2 f) as [s4 |];
      simpl; congruence.
  - by rewrite Hswap.
  - by rewrite <- Hswap.
  - done.
Qed.

(** X18: the order in which a caller sets the flags of a list of fields
    does not matter: two lists that are permutations of each other leave
    the same buffer, and fail together. *)
Theorem set_fields_any_order (fs fs' : list upb_struct_field) :
  fs ≡ₚ fs' -> forall s : buffer, set_fields s fs = set_fields s fs'.
Proof.
  induction 1 as [| f fs fs' _ IH | f g fs | fs fs' fs'' _ IH1 _ IH2];
    intros s.
  - done.
  - cbn [set_fields]. destruct (upb_struct_set s f); simpl; [apply IH | done].
  - symmetry. apply set_fields_swap.
  - by rewrite IH1.
Qed.

Lemma set_fields_any_order_witness :
  set_fields [0; 0] [req0; opt1] = set_fields [0; 0] [opt1; req0].
Proof.
  refine (set_fields_any_order [req0; opt1] [opt1; req0] _ [0; 0]).
  apply perm_swap.
Defined.

Lemma byte_from_bits b r :
  is_uint8 b -> 0 <= r <= 8 ->
  (forall i, 0 <= i < r -> Z.testbit b i = true) ->
  (forall i, r <= i < 8 -> Z.testbit b i = false) ->
  b = Z.shiftl 1 r - 1.
Proof.
  intros Hb Hr Hlow Hhigh. apply Z.bits_inj'; intros i Hi.
  rewrite shiftl_1_pred_testbit by lia.
  destruct (Z.ltb_spec i r).
  - apply Hlow. lia.
  - destruct (decide (i < 8)); [apply Hhigh; lia |].
    apply is_uint8_high_bits; [done | lia].
Qed.

(** X19: the check is exact when no other flag shares the last byte it
    reads.  In a buffer of bytes that holds the cells read, if the bits of
    cell [whole_bytes n] from bit [remaining_bits n] up are 0, then the
    check answers true exactly when every field at a position below
    [n = num_required_fields] of the packing rule has its flag set. *)
Theorem all_required_exact_when_tail_clear
    (s : buffer) (d : upb_struct_definition) (last : Z) :
  let n := num_required_fields d in
  0 <= n ->
  wf_buffer s ->
  read_byte s (whole_bytes n) = Some last ->
  (forall i, remaining_bits n <= i < 8 -> Z.testbit last i = false) ->
  upb_struct_all_required_fields_set s d = Some true <->
  forall j f, 0 <= j < n -> packed_field j f ->
    upb_struct_is_set s f = Some true.
Proof.
  intros n Hn Hwf Hlast Htail. split.
  - intros Htrue j f Hj Hf. by eapply all_required_true_sound.
  - intros Hall. unfold upb_struct_all_required_fields_set. fold n.
    apply required_loop_true; [done |]. rewrite Z.add_0_l.
    pose proof (whole_bytes_nonneg n) as Hq.
    pose proof (remaining_bits_range n Hn) as Hr.
    assert (Hsplit : n = 8 * whole_bytes n + remaining_bits n)
      by (unfold remaining_bits; lia).
    assert (Hbit : forall k i b, 0 <= k -> 0 <= i < 8 -> 8 * k + i < n ->
              read_byte s k = Some b -> Z.testbit b i = true).
    { intros k i b Hk Hi Hlt Hb.
      pose (f := {| byte_offset := 0; isset_byte_offset := k;
                    isset_byte_mask := Z.shiftl 1 i |}).
      assert (Hdiv : (8 * k + i) / 8 = k).
      { rewrite Z.mul_comm, Z.div_add_l, Z.div_small by lia. lia. }
      assert (Hmod : (8 * k + i) mod 8 = i).
      { rewrite Z.add_comm, Z.mul_comm, Z.mod_add, Z.mod_small by lia. done. }
      assert (Hf : packed_field (8 * k + i) f).
      { split; simpl; unfold presence_byte, presence_mask;
          by rewrite ?Hdiv, ?Hmod. }
      pose proof (Hall (8 * k + i) f ltac:(lia) Hf) as Hset.
      rewrite (is_set_packed s _ f b Hf) in Hset
        by (unfold presence_byte; by rewrite Hdiv).
      rewrite Hmod in Hset. by injection Hset. }
    assert (Hcell : forall k b, read_byte s k = Some b -> is_uint8 b).
    { intros k b Hb. unfold read_byte in Hb. case_decide; [| done].
      unfold wf_buffer in Hwf. rewrite Forall_lookup in Hwf. by eapply Hwf. }
    split.
    + intros k Hk. rewrite Z.add_0_l.
      apply read_byte_Some in Hlast as Hlen.
      destruct (read_byte_in_bounds s k ltac:(lia)) as [b Hb].
      rewrite Hb. f_equal. change 255 with (Z.shiftl 1 8 - 1).
      apply byte_from_bits; [by eapply Hcell | lia | | intros; lia].
      intros i Hi. apply (Hbit k i b); (lia || done).
    + rewrite Hlast. f_equal.
      apply byte_from_bits; [by eapply Hcell | done | | done].
      intros i Hi. apply (Hbit (whole_bytes n) i last); (lia || done).
Qed.

Lemma all_required_exact_when_tail_clear_witness :
  upb_struct_all_required_fields_set [255; 3; 0] ten_required = Some true <->
  forall j f, 0 <= j < num_required_fields ten_required -> packed_field j f ->
    upb_struct_is_set [255; 3; 0] f = Some true.
Proof.
  refine (all_required_exact_when_tail_clear [255; 3; 0] ten_required 3 _ _ _ _).
  - simpl. lia.
  - repeat constructor; unfold is_uint8; lia.
  - reflexivity.
  - intros i Hi. change (remaining_bits (num_required_fields ten_required))
      with 2 in Hi.
    assert (i = 2 \/ i = 3 \/ i = 4 \/ i = 5 \/ i = 6 \/ i = 7) as Hcases by lia.
    destruct Hcases as [-> | [-> | [-> | [-> | [-> | ->]]]]]; reflexivity.
Defined.
